(** * p0f-go: the protocol engine of the p0f client

    A shallow embedding of package [p0f] (the wire codec, the request
    queue, the worker goroutine and the lifecycle of [P0f]) together with
    the properties of its behaviour.

    Conventions.
    - A Go [byte] is a [Byte.byte]; a [[]byte] or a fixed array is a
      [list byte]; [uint16] and [uint32] values are [Z] in their range.
    - A Go [string] is a [string]; the conversion [string(b)] of a byte
      slice is [String.string_of_list_byte].
    - A Go [error] is [option string]: [None] is [nil], [Some msg] is an
      error whose [Error()] text is [msg].
    - [binary.NativeEndian] is fixed when the program is compiled; it is
      the section variable [native]. *)

From Stdlib Require Import ZArith Lia Strings.Byte DecimalString.
From stdpp Require Import base list strings sorting.

Open Scope Z_scope.

(** ** Bytes and fixed-width integers *)

#[global] Instance byte_inhabited : Inhabited byte := populate x00.

#[global] Instance byte_eq_dec : EqDecision byte := Byte.byte_eq_dec.

Definition byte_to_Z (b : byte) : Z := Z.of_N (Byte.to_N b).

(** The conversion [byte(v)] of an unsigned integer keeps the low 8 bits. *)
Definition byte_of_Z (v : Z) : byte :=
  default x00 (Byte.of_N (Z.to_N (Z.land v 255))).

Inductive ByteOrder := LittleEndian | BigEndian.

Definition error := string.

(** ** Constants of the package *)

Definition requestChanSize : nat := 1024.
Definition requestSize : nat := 21.
Definition responseSize : nat := 44 + (32 * 6).
Definition ipv4Dword : byte := x04.
Definition ipv6Dword : byte := x06.
Definition resultBadQuery : Z := 0x00.
Definition resultOk : Z := 0x10.
Definition resultNoMatch : Z := 0x20.
Definition p0fStrMax : nat := 32.
Definition magicBytesSend : Z := 0x50304601.
Definition magicBytesRcv : Z := 0x50304602.

(** ** Package [encoding/binary] *)

Module binary.

(** [order.Uint16(b)]: reads [b[0]], [b[1]]. A shorter slice makes Go
    panic; every caller below passes exactly two bytes, and the model
    answers 0 on a shorter slice. *)
Definition Uint16 (order : ByteOrder) (b : list byte) : Z :=
  match b with
  | b0 :: b1 :: _ =>
      match order with
      | LittleEndian => Z.lor (byte_to_Z b0) (Z.shiftl (byte_to_Z b1) 8)
      | BigEndian => Z.lor (byte_to_Z b1) (Z.shiftl (byte_to_Z b0) 8)
      end
  | _ => 0
  end.

(** [order.Uint32(b)]: reads [b[0]] to [b[3]]. Each byte is widened to
    [uint32] before its shift of at most 24 bits, so nothing wraps
    around. *)
Definition Uint32 (order : ByteOrder) (b : list byte) : Z :=
  match b with
  | b0 :: b1 :: b2 :: b3 :: _ =>
      match order with
      | LittleEndian =>
          Z.lor (Z.lor (Z.lor (byte_to_Z b0) (Z.shiftl (byte_to_Z b1) 8))
                       (Z.shiftl (byte_to_Z b2) 16))
                (Z.shiftl (byte_to_Z b3) 24)
      | BigEndian =>
          Z.lor (Z.lor (Z.lor (byte_to_Z b3) (Z.shiftl (byte_to_Z b2) 8))
                       (Z.shiftl (byte_to_Z b1) 16))
                (Z.shiftl (byte_to_Z b0) 24)
      end
  | _ => 0
  end.

(** [order.PutUint32(b, v)]: writes [b[0]] to [b[3]] in place and leaves
    the rest of [b] alone. *)
Definition PutUint32 (order : ByteOrder) (b : list byte) (v : Z) : list byte :=
  match order with
  | LittleEndian =>
      <[3%nat := byte_of_Z (Z.shiftr v 24)]>
        (<[2%nat := byte_of_Z (Z.shiftr v 16)]>
           (<[1%nat := byte_of_Z (Z.shiftr v 8)]>
              (<[0%nat := byte_of_Z v]> b)))
  | BigEndian =>
      <[3%nat := byte_of_Z v]>
        (<[2%nat := byte_of_Z (Z.shiftr v 8)]>
           (<[1%nat := byte_of_Z (Z.shiftr v 16)]>
              (<[0%nat := byte_of_Z (Z.shiftr v 24)]> b)))
  end.

(** A decoder walks a byte slice from the front, as [binary.Read] walks
    the fields of a struct over the bytes it has read. *)
Definition decoder (A : Type) : Type := list byte → option (A * list byte).

Definition ret {A} (a : A) : decoder A := λ bs, Some (a, bs).

Definition bind {A B} (d : decoder A) (k : A → decoder B) : decoder B :=
  λ bs, match d bs with
        | Some (a, rest) => k a rest
        | None => None
        end.

(** [n] raw bytes: a [[n]byte] field. *)
Definition bytes (n : nat) : decoder (list byte) :=
  λ bs, if decide (n ≤ length bs)%nat then Some (take n bs, drop n bs) else None.

Definition uint8 : decoder byte :=
  λ bs, match bs with
        | b :: rest => Some (b, rest)
        | [] => None
        end.

Definition uint16 (order : ByteOrder) : decoder Z :=
  bind (bytes 2) (λ b, ret (Uint16 order b)).

Definition uint32 (order : ByteOrder) : decoder Z :=
  bind (bytes 4) (λ b, ret (Uint32 order b)).

End binary.

Notation "'let*' x ':=' d 'in' k" := (binary.bind d (λ x, k))
  (at level 10, x name, d at level 100, k at level 200, only parsing).

(** ** Package [net]: the [IP] type *)

Module net.

(** [net.IP] is a byte slice: 4 bytes for an IPv4 address, 16 bytes for
    an IPv6 address (an IPv4 address may also be held in its 16-byte,
    IPv4-mapped form). *)
Definition IP := list byte.

Definition IPv4len : nat := 4.
Definition IPv6len : nat := 16.

Definition v4InV6Prefix : list byte :=
  [x00; x00; x00; x00; x00; x00; x00; x00; x00; x00; xff; xff].

Definition IPv4 (a b c d : byte) : IP := v4InV6Prefix ++ [a; b; c; d].

Definition isZeros (p : list byte) : bool :=
  forallb (λ b, bool_decide (b = x00)) p.

(** [ip.To4()]: [None] is the nil slice. *)
Definition To4 (ip : IP) : option IP :=
  if decide (length ip = IPv4len) then Some ip
  else if decide (length ip = IPv6len) then
    if isZeros (take 10 ip)
       && bool_decide (ip !!! 10%nat = xff)
       && bool_decide (ip !!! 11%nat = xff)
    then Some (take 4 (drop 12 ip))
    else None
  else None.

(** [ip.To16()]: [None] is the nil slice. *)
Definition To16 (ip : IP) : option IP :=
  if decide (length ip = IPv4len) then
    Some (IPv4 (ip !!! 0%nat) (ip !!! 1%nat) (ip !!! 2%nat) (ip !!! 3%nat))
  else if decide (length ip = IPv6len) then Some ip
  else None.

End net.

(** ** Fixed-width strings of the response *)

(** The loop [for i := 1; i < len(cStr); i++] of [trstr]: [n] counts the
    iterations left, so [i + n = len(cStr)]. It returns the bytes that
    become the string. *)
Fixpoint trstr_scan (cStr : list byte) (i n : nat) : list byte :=
  match n with
  | O => cStr
  | S n' =>
      if decide (cStr !!! i = x00) then take i cStr
      else trstr_scan cStr (S i) n'
  end.

(** [trstr(cStr [p0fStrMax]byte) *string]: [None] is the nil pointer. *)
Definition trstr (cStr : list byte) : option string :=
  if decide (cStr !!! 0%nat = x00) then None
  else Some (String.string_of_list_byte
               (trstr_scan cStr 1 (length cStr - 1))).

(** ** The response *)

Record P0fResponse := {
  Ip : string;
  FirstSeen : Z;
  LastSeen : Z;
  TotalCount : Z;
  UptimeMin : Z;
  UpModDays : Z;
  LastNat : Z;
  LastChg : Z;
  Distance : Z;
  BadSw : byte;
  OsMatchQ : byte;
  OsName : option string;
  OsFlavor : option string;
  HttpName : option string;
  HttpFlavor : option string;
  LinkMtu : Z;
  LinkType : option string;
  Language : option string
}.

(** The zero value of [P0fResponse]: what a named result holds until it is
    assigned. *)
Definition P0fResponse_zero : P0fResponse := {|
  Ip := ""; FirstSeen := 0; LastSeen := 0; TotalCount := 0; UptimeMin := 0;
  UpModDays := 0; LastNat := 0; LastChg := 0; Distance := 0; BadSw := x00;
  OsMatchQ := x00; OsName := None; OsFlavor := None; HttpName := None;
  HttpFlavor := None; LinkMtu := 0; LinkType := None; Language := None
|}.

(** The local struct [r] of [readResponse], prefixed [r_]. *)
Record rawResponse := {
  r_Magic : Z;
  r_Status : Z;
  r_FirstSeen : Z;
  r_LastSeen : Z;
  r_TotalCount : Z;
  r_UptimeMin : Z;
  r_UpModDays : Z;
  r_LastNat : Z;
  r_LastChg : Z;
  r_Distance : Z;
  r_BadSw : byte;
  r_OsMatchQ : byte;
  r_OsName : list byte;
  r_OsFlavor : list byte;
  r_HttpName : list byte;
  r_HttpFlavor : list byte;
  r_LinkMtu : Z;
  r_LinkType : list byte;
  r_Language : list byte
}.

(** [fmt.Errorf] with the verb [%d] on a [uint32]. *)
Definition format_d (v : Z) : string :=
  NilZero.string_of_uint (N.to_uint (Z.to_N v)).

Section Codec.

(** [binary.NativeEndian] of the machine the program is compiled for. *)
Variable native : ByteOrder.

(** The fields of [r] in declaration order, as [binary.Read] decodes
    them: no padding between fields. *)
Definition decode_r : binary.decoder rawResponse :=
  let* magic := binary.uint32 native in
  let* status := binary.uint32 native in
  let* firstSeen := binary.uint32 native in
  let* lastSeen := binary.uint32 native in
  let* totalCount := binary.uint32 native in
  let* uptimeMin := binary.uint32 native in
  let* upModDays := binary.uint32 native in
  let* lastNat := binary.uint32 native in
  let* lastChg := binary.uint32 native in
  let* distance := binary.uint16 native in
  let* badSw := binary.uint8 in
  let* osMatchQ := binary.uint8 in
  let* osName := binary.bytes p0fStrMax in
  let* osFlavor := binary.bytes p0fStrMax in
  let* httpName := binary.bytes p0fStrMax in
  let* httpFlavor := binary.bytes p0fStrMax in
  let* linkMtu := binary.uint16 native in
  let* linkType := binary.bytes p0fStrMax in
  let* language := binary.bytes p0fStrMax in
  binary.ret {|
    r_Magic := magic; r_Status := status; r_FirstSeen := firstSeen;
    r_LastSeen := lastSeen; r_TotalCount := totalCount;
    r_UptimeMin := uptimeMin; r_UpModDays := upModDays;
    r_LastNat := lastNat; r_LastChg := lastChg; r_Distance := distance;
    r_BadSw := badSw; r_OsMatchQ := osMatchQ; r_OsName := osName;
    r_OsFlavor := osFlavor; r_HttpName := httpName;
    r_HttpFlavor := httpFlavor; r_LinkMtu := linkMtu;
    r_LinkType := linkType; r_Language := language
  |}.

(** [binary.Size(&r)]: the encoded size of [r]. *)
Definition r_Size : nat := 4 + 4 + 7 * 4 + 2 + 1 + 1 + 4 * 32 + 2 + 2 * 32.

(** [binary.Read(bytes.NewReader(data), binary.NativeEndian, &r)]: reads
    [binary.Size(&r)] bytes from the reader, which fails on a shorter
    input, and decodes [r] from them; what follows in the reader is left
    unread. *)
Definition binary_Read (data : list byte) : rawResponse + error :=
  if decide (r_Size ≤ length data)%nat then
    match decode_r (take r_Size data) with
    | Some (r, _) => inl r
    | None => inr "unexpected EOF"
    end
  else inr (if decide (data = []) then "EOF" else "unexpected EOF").

(** [readResponse] from the point where [p.conn.Read] has filled
    [responseBytes] without error. The pair is the Go result
    [(resp, err)]. *)
Definition decodeResponse (ip : string) (responseBytes : list byte)
  : P0fResponse * option error :=
  match binary_Read responseBytes with
  | inr err => (P0fResponse_zero, Some err)
  | inl r =>
      if decide (r_Magic r ≠ magicBytesRcv) then
        (P0fResponse_zero, Some "invalid magic bytes in response")
      else if decide (r_Status r = resultOk) then
        ({| Ip := ip;
            FirstSeen := r_FirstSeen r;
            LastSeen := r_LastSeen r;
            TotalCount := r_TotalCount r;
            UptimeMin := r_UptimeMin r;
            UpModDays := r_UpModDays r;
            LastNat := r_LastNat r;
            LastChg := r_LastChg r;
            Distance := r_Distance r;
            BadSw := r_BadSw r;
            OsMatchQ := r_OsMatchQ r;
            OsName := trstr (r_OsName r);
            OsFlavor := trstr (r_OsFlavor r);
            HttpName := trstr (r_HttpName r);
            HttpFlavor := trstr (r_HttpFlavor r);
            LinkMtu := r_LinkMtu r;
            LinkType := trstr (r_LinkType r);
            Language := trstr (r_Language r) |}, None)
      else if decide (r_Status r = resultBadQuery) then
        (P0fResponse_zero, Some "bad query")
      else if decide (r_Status r = resultNoMatch) then
        (P0fResponse_zero, Some "no match")
      else
        (P0fResponse_zero,
         Some ("unknown response code " +:+ format_d (r_Status r)))
  end.

(** The wire layout of a response, by offset: how the statements below
    name the bytes of a frame. *)
Definition slice (off n : nat) (frame : list byte) : list byte :=
  take n (drop off frame).
Definition u32_at (off : nat) (frame : list byte) : Z :=
  binary.Uint32 native (slice off 4 frame).
Definition u16_at (off : nat) (frame : list byte) : Z :=
  binary.Uint16 native (slice off 2 frame).
Definition u8_at (off : nat) (frame : list byte) : byte :=
  frame !!! off.

(** [r] as the wire layout gives it: every field at its offset. *)
Definition r_at (data : list byte) : rawResponse := {|
  r_Magic := u32_at 0 data;
  r_Status := u32_at 4 data;
  r_FirstSeen := u32_at 8 data;
  r_LastSeen := u32_at 12 data;
  r_TotalCount := u32_at 16 data;
  r_UptimeMin := u32_at 20 data;
  r_UpModDays := u32_at 24 data;
  r_LastNat := u32_at 28 data;
  r_LastChg := u32_at 32 data;
  r_Distance := u16_at 36 data;
  r_BadSw := u8_at 38 data;
  r_OsMatchQ := u8_at 39 data;
  r_OsName := slice 40 32 data;
  r_OsFlavor := slice 72 32 data;
  r_HttpName := slice 104 32 data;
  r_HttpFlavor := slice 136 32 data;
  r_LinkMtu := u16_at 168 data;
  r_LinkType := slice 170 32 data;
  r_Language := slice 202 32 data
|}.

(** The result of a match as the wire layout gives it. *)
Definition result_at (ip : string) (data : list byte) : P0fResponse := {|
  Ip := ip;
  FirstSeen := u32_at 8 data;
  LastSeen := u32_at 12 data;
  TotalCount := u32_at 16 data;
  UptimeMin := u32_at 20 data;
  UpModDays := u32_at 24 data;
  LastNat := u32_at 28 data;
  LastChg := u32_at 32 data;
  Distance := u16_at 36 data;
  BadSw := u8_at 38 data;
  OsMatchQ := u8_at 39 data;
  OsName := trstr (slice 40 32 data);
  OsFlavor := trstr (slice 72 32 data);
  HttpName := trstr (slice 104 32 data);
  HttpFlavor := trstr (slice 136 32 data);
  LinkMtu := u16_at 168 data;
  LinkType := trstr (slice 170 32 data);
  Language := trstr (slice 202 32 data)
|}.

(** What [p.conn.Read(responseBytes)] did: failed, or delivered [data]
    (the bytes the daemon had sent) into the buffer. *)
Inductive read_outcome :=
| ReadErr (e : error)
| ReadOk (data : list byte).

(** [responseBytes] after a successful [Read]: a buffer of
    [responseSize] zero bytes whose front is overwritten by the bytes
    received; the count [Read] returns is dropped by the code. *)
Definition fill_buffer (data : list byte) : list byte :=
  take responseSize (data ++ replicate responseSize x00).

(** [readResponse(ip)]. *)
Definition readResponse (rd : read_outcome) (ip : string)
  : P0fResponse * option error :=
  match rd with
  | ReadErr e => (P0fResponse_zero, Some e)
  | ReadOk data => decodeResponse ip (fill_buffer data)
  end.

(** The loops [for i, b := range src { buffer[5+i] = b }] of
    [writeRequest]. *)
Definition copy_at (buffer : list byte) (src : list byte) : list byte :=
  foldl (λ buf ib, <[(5 + ib.1)%nat := ib.2]> buf) buffer (imap pair src).

(** The 21 bytes [writeRequest] hands to [p.conn.Write]. A nil [To16()]
    (an address that is neither 4 nor 16 bytes long) ranges over
    nothing. *)
Definition requestFrame (ip : net.IP) : list byte :=
  let buffer := replicate requestSize x00 in
  let buffer :=
    binary.PutUint32 native (take 4 buffer) magicBytesSend ++ drop 4 buffer in
  match net.To4 ip with
  | Some ip4 =>
      let buffer := <[4%nat := ipv4Dword]> buffer in
      copy_at buffer ip4
  | None =>
      let buffer := <[4%nat := ipv6Dword]> buffer in
      copy_at buffer (default [] (net.To16 ip))
  end.

(** [writeRequest(request)]: the frame written and the error of
    [p.conn.Write], which the environment decides. *)
Definition writeRequest (wr : option error) (ip : net.IP)
  : list byte * option error :=
  (requestFrame ip, wr).

End Codec.

(** ** The engine: [P0f], its callers and its worker

    Goroutines interleave at their operations on shared memory: the atomic
    flag, the channel, the [WaitGroup] of a request. Each goroutine is a
    program counter; an [event] names the goroutine that takes the next
    step, and [step] is that step. A goroutine that is blocked does not
    move. *)

Module Engine.

(** A [p0fRequest] on the heap; a [*p0fRequest] is its index. [wg] is the
    counter of the request's [sync.WaitGroup]. *)
Record p0fRequest := {
  ip : net.IP;
  wg : nat;
  response : P0fResponse;
  err : option error
}.

(** A goroutine inside [Query] or [Shutdown]: where it stands. *)
Inductive caller :=
| Query_load (ip : net.IP)        (* at [p.shutdown.Load()] *)
| Query_select (ip : net.IP)      (* at the [select] *)
| Query_wait (request : nat)      (* at [wg.Wait()] *)
| Query_return (response : P0fResponse) (err : option error)
| Query_panic (msg : string)      (* a panic leaves [Query] *)
| Shutdown_cas                    (* at [p.shutdown.CompareAndSwap] *)
| Shutdown_close                  (* at [close(p.requestQueue)] *)
| Shutdown_return.

(** The goroutine running [start]. *)
Inductive worker :=
| start_guard                     (* at [for !p.shutdown.Load()] *)
| start_receive                   (* at [<-p.requestQueue] *)
| start_exchange (request : nat)  (* in the function literal *)
| start_return.                   (* [start] has returned *)

(** What the connection does during one exchange: the error of
    [p.conn.Write] and the outcome of [p.conn.Read]. *)
Record exchange := {
  write_err : option error;
  read : read_outcome
}.

Record state := {
  shutdown : bool;                (* [p.shutdown] *)
  requestQueue : list nat;        (* the buffer of [p.requestQueue] *)
  queueClosed : bool;             (* [p.requestQueue] is closed *)
  connOpen : bool;                (* [p.conn] is not closed *)
  written : list (list byte);     (* the frames handed to [p.conn.Write] *)
  heap : list p0fRequest;
  work : worker;
  callers : list caller;
  logged : list string            (* the lines of [log.Println] *)
}.

Inductive event :=
| Call_Query (ip : net.IP)        (* a new goroutine enters [p.Query(ip)] *)
| Call_Shutdown                   (* a new goroutine enters [p.Shutdown()] *)
| Run (g : nat)                   (* caller [g] takes its next step *)
| Work (io : exchange).           (* the worker takes its next step *)

Definition set_caller (g : nat) (c : caller) (s : state) : state :=
  {| shutdown := shutdown s; requestQueue := requestQueue s;
     queueClosed := queueClosed s; connOpen := connOpen s;
     written := written s; heap := heap s; work := work s;
     callers := <[g := c]> (callers s); logged := logged s |}.

Definition spawn (c : caller) (s : state) : state :=
  {| shutdown := shutdown s; requestQueue := requestQueue s;
     queueClosed := queueClosed s; connOpen := connOpen s;
     written := written s; heap := heap s; work := work s;
     callers := callers s ++ [c]; logged := logged s |}.

(** [New]: the state once [net.Dial] has succeeded and [go p.start()] has
    been issued. *)
Definition New : state :=
  {| shutdown := false; requestQueue := []; queueClosed := false;
     connOpen := true; written := []; heap := []; work := start_guard;
     callers := []; logged := [] |}.

(** One step of a goroutine inside [Query]. *)
Definition Query_step (g : nat) (c : caller) (s : state) : state :=
  match c with
  | Query_load ip =>
      if shutdown s then
        set_caller g (Query_return P0fResponse_zero
                        (Some "P0f::Shutdown previously called")) s
      else set_caller g (Query_select ip) s
  | Query_select ip =>
      (* [request := &p0fRequest{ip: ip, wg: wg}] after [wg.Add(1)] *)
      let request := length (heap s) in
      let heap' :=
        heap s ++ [{| ip := ip; wg := 1; response := P0fResponse_zero;
                      err := None |}] in
      if queueClosed s then
        {| shutdown := shutdown s; requestQueue := requestQueue s;
           queueClosed := queueClosed s; connOpen := connOpen s;
           written := written s; heap := heap'; work := work s;
           callers := <[g := Query_panic "send on closed channel"]> (callers s);
           logged := logged s |}
      else if decide (length (requestQueue s) < requestChanSize)%nat then
        {| shutdown := shutdown s;
           requestQueue := requestQueue s ++ [request];
           queueClosed := queueClosed s; connOpen := connOpen s;
           written := written s; heap := heap'; work := work s;
           callers := <[g := Query_wait request]> (callers s);
           logged := logged s |}
      else
        {| shutdown := shutdown s; requestQueue := requestQueue s;
           queueClosed := queueClosed s; connOpen := connOpen s;
           written := written s; heap := heap'; work := work s;
           callers := <[g := Query_return P0fResponse_zero
                              (Some "requestQueue at capacity")]> (callers s);
           logged := logged s |}
  | Query_wait request =>
      match heap s !! request with
      | Some r =>
          if decide (wg r = 0%nat) then
            set_caller g (Query_return (response r) (err r)) s
          else s
      | None => s
      end
  | _ => s
  end.

(** One step of a goroutine inside [Shutdown]. Closing a closed channel
    panics; the deferred function of [Shutdown] recovers and logs. *)
Definition Shutdown_step (g : nat) (c : caller) (s : state) : state :=
  match c with
  | Shutdown_cas =>
      if shutdown s then set_caller g Shutdown_return s
      else
        {| shutdown := true; requestQueue := requestQueue s;
           queueClosed := queueClosed s; connOpen := connOpen s;
           written := written s; heap := heap s; work := work s;
           callers := <[g := Shutdown_close]> (callers s);
           logged := logged s |}
  | Shutdown_close =>
      if queueClosed s then
        {| shutdown := shutdown s; requestQueue := requestQueue s;
           queueClosed := queueClosed s; connOpen := connOpen s;
           written := written s; heap := heap s; work := work s;
           callers := <[g := Shutdown_return]> (callers s);
           logged := logged s ++ ["error in Shutdown: close of closed channel"] |}
      else
        {| shutdown := shutdown s; requestQueue := requestQueue s;
           queueClosed := true; connOpen := connOpen s;
           written := written s; heap := heap s; work := work s;
           callers := <[g := Shutdown_return]> (callers s);
           logged := logged s |}
  | _ => s
  end.

Definition caller_step (g : nat) (c : caller) (s : state) : state :=
  match c with
  | Query_load _ | Query_select _ | Query_wait _ => Query_step g c s
  | Shutdown_cas | Shutdown_close => Shutdown_step g c s
  | Query_return _ _ | Query_panic _ | Shutdown_return => s
  end.

Section Worker.

Variable native : ByteOrder.

(** [ip.String()], the textual form of an address (package [net]). *)
Variable IP_String : net.IP → string.

(** [start] returns: the deferred [p.conn.Close()] runs. *)
Definition start_exit (s : state) : state :=
  {| shutdown := shutdown s; requestQueue := requestQueue s;
     queueClosed := queueClosed s; connOpen := false;
     written := written s; heap := heap s; work := start_return;
     callers := callers s; logged := logged s |}.

Definition set_work (w : worker) (s : state) : state :=
  {| shutdown := shutdown s; requestQueue := requestQueue s;
     queueClosed := queueClosed s; connOpen := connOpen s;
     written := written s; heap := heap s; work := w;
     callers := callers s; logged := logged s |}.

(** The function literal of [start] on [request]: [set] is what it
    assigns to [request.response] and [request.err] (a failed write
    leaves [request.response] as it was), and the deferred
    [request.wg.Done()] runs on both paths. The counter is 1 here, set by
    [Query] and decremented nowhere else. *)
Definition exchange_request (io : exchange) (r : p0fRequest)
  : list byte * p0fRequest :=
  let sent := writeRequest native (write_err io) (ip r) in
  let set :=
    match sent.2 with
    | Some e => (response r, Some e)
    | None => readResponse native (read io) (IP_String (ip r))
    end in
  (sent.1, {| ip := ip r; wg := wg r - 1; response := set.1; err := set.2 |}).

(** One step of the worker. *)
Definition start_step (io : exchange) (s : state) : state :=
  match work s with
  | start_guard =>
      if shutdown s then start_exit s else set_work start_receive s
  | start_receive =>
      match requestQueue s with
      | request :: rest =>
          {| shutdown := shutdown s; requestQueue := rest;
             queueClosed := queueClosed s; connOpen := connOpen s;
             written := written s; heap := heap s;
             work := start_exchange request;
             callers := callers s; logged := logged s |}
      | [] => if queueClosed s then start_exit s else s
      end
  | start_exchange request =>
      match heap s !! request with
      | Some r =>
          let done := exchange_request io r in
          {| shutdown := shutdown s; requestQueue := requestQueue s;
             queueClosed := queueClosed s; connOpen := connOpen s;
             written := written s ++ [done.1];
             heap := <[request := done.2]> (heap s);
             work := start_guard;
             callers := callers s; logged := logged s |}
      | None => s
      end
  | start_return => s
  end.

Definition step (e : event) (s : state) : state :=
  match e with
  | Call_Query ip => spawn (Query_load ip) s
  | Call_Shutdown => spawn Shutdown_cas s
  | Run g =>
      match callers s !! g with
      | Some c => caller_step g c s
      | None => s
      end
  | Work io => start_step io s
  end.

(** The state after the events of [tr], in order, from [s]. *)
Definition exec (tr : list event) (s : state) : state :=
  foldl (λ s e, step e s) s tr.

End Worker.

Definition is_closing (c : caller) : bool :=
  match c with
  | Shutdown_close => true
  | _ => false
  end.

(** How many goroutines have won the compare-and-swap of [Shutdown] and
    have not closed the channel yet. *)
Definition closing (s : state) : nat :=
  length (List.filter is_closing (callers s)).

(** Caller [g] waits on request [p], which holds [r] and is not done,
    and [start] has returned. *)
Definition abandoned (g p : nat) (r : p0fRequest) (s : state) : Prop :=
  work s = start_return ∧
  callers s !! g = Some (Query_wait p) ∧
  heap s !! p = Some r ∧
  wg r ≠ 0%nat.

(** A run in which one request is being served, a second one is accepted
    into the queue, [Shutdown] is called, and the worker then finishes the
    first request and comes back to the head of its loop. *)
Definition abandon_run (ip : net.IP) (io : exchange) : list event :=
  [Call_Query ip; Run 0; Run 0;       (* request 0 is queued *)
   Work io; Work io;                  (* the worker receives request 0 *)
   Call_Query ip; Run 1; Run 1;       (* request 1 is queued *)
   Call_Shutdown; Run 2; Run 2;       (* the flag is set, the channel closed *)
   Work io;                           (* request 0 is done *)
   Run 0;                             (* its caller returns *)
   Work io].                          (* the worker is back at the loop head *)

(** Caller [g], a call of [Query(ip)], has not loaded the flag yet or has
    returned the shutdown error. *)
Definition refused (g : nat) (ip : net.IP) (s : state) : Prop :=
  callers s !! g = Some (Query_load ip) ∨
  callers s !! g
  = Some (Query_return P0fResponse_zero
            (Some "P0f::Shutdown previously called")).

(** What holds of every state the engine reaches from [New]. *)
Record inv (s : state) : Prop := {
  inv_capacity : (length (requestQueue s) ≤ requestChanSize)%nat;
  inv_winner :
    (closing s + Nat.b2n (queueClosed s) = Nat.b2n (shutdown s))%nat;
  inv_logged : logged s = [];
  inv_conn : work s = start_return ↔ connOpen s = false
}.

(** In a goal about [<[g := c']> (callers s)]: instantiate [H] at [c']. *)
Ltac at_insert H :=
  match goal with
  | |- context [insert _ ?c' (callers _)] => specialize (H c')
  end.

End Engine.

(** ** The bookkeeping of the requests *)

Module Requests.
Import Engine.

(** A request on the heap is done ([wg] released; an error goes with the
    zero result) or pending (as [Query] made it). *)
Definition request_ok (r : p0fRequest) : Prop :=
  (wg r = 0%nat ∧ (err r ≠ None → response r = P0fResponse_zero)) ∨
  (wg r = 1%nat ∧ response r = P0fResponse_zero ∧ err r = None).

Definition pending (h : list p0fRequest) (p : nat) : Prop :=
  ∃ r, h !! p = Some r ∧ wg r = 1%nat.

Definition is_done (r : p0fRequest) : bool := Nat.eqb (wg r) 0.

Definition done_count (h : list p0fRequest) : nat :=
  length (List.filter is_done h).

(** A caller waits on a request of the heap; a call that returned an
    error returned the zero result with it. *)
Definition caller_ok (h : list p0fRequest) (c : caller) : Prop :=
  match c with
  | Query_wait p => (p < length h)%nat
  | Query_return resp (Some _) => resp = P0fResponse_zero
  | _ => True
  end.

(** The bookkeeping of every state the engine reaches from [New]. *)
Record wf (s : state) : Prop := {
  wf_heap : Forall request_ok (heap s);
  wf_callers : Forall (caller_ok (heap s)) (callers s);
  wf_sorted : StronglySorted lt (requestQueue s);
  wf_queue : Forall (pending (heap s)) (requestQueue s);
  wf_work : ∀ p, work s = start_exchange p →
            pending (heap s) p ∧ Forall (lt p) (requestQueue s);
  wf_count : length (written s) = done_count (heap s);
  wf_frames : Forall (λ f, length f = requestSize) (written s)
}.

End Requests.

(** ** The callers that wait *)

Module Waiting.
Import Engine Requests.

(** Where the request of a waiting caller is: done, in the queue, or in
    the hands of the worker. *)
Definition tracked (s : state) (p : nat) : Prop :=
  (∃ r, heap s !! p = Some r ∧ wg r = 0%nat) ∨
  p ∈ requestQueue s ∨
  work s = start_exchange p.

Definition waits_tracked (s : state) : Prop :=
  ∀ g p, callers s !! g = Some (Query_wait p) → tracked s p.

End Waiting.

(** ** The HTTP front end

    The handler of [StartHttpWebServer], and the one the stand-alone
    [main] has inline, as the calls they make on the
    [http.ResponseWriter], in order. What [net.SplitHostPort], [net.ParseIP] and [p.Query] answer is
    given from outside; [asked] is the address [p.Query] was called
    with, if it was called. *)

Module http.

Definition StatusBadRequest : nat := 400.
Definition StatusMethodNotAllowed : nat := 405.
Definition StatusInternalServerError : nat := 500.

(** The part of [*http.Request] the handlers read. *)
Record Request := {
  Method : string;
  RemoteAddr : string;
  Query_Has_p : bool                  (* [r.URL.Query().Has("p")] *)
}.

Inductive call :=
| Header_Set (key value : string)     (* [w.Header().Set(key, value)] *)
| Error (msg : string) (code : nat)   (* [http.Error(w, msg, code)] *)
| SetIndent (prefix indent : string)  (* [enc.SetIndent(prefix, indent)] *)
| Encode (response : P0fResponse).    (* [enc.Encode(response)] *)

(** A call that writes the response. *)
Definition writes (c : call) : bool :=
  match c with
  | Error _ _ | Encode _ => true
  | Header_Set _ _ | SetIndent _ _ => false
  end.

Section Handlers.

(** [net.SplitHostPort]: host, port and error. *)
Variable SplitHostPort : string → string * string * option error.

(** [net.ParseIP]: [None] is nil. *)
Variable ParseIP : string → option net.IP.

(** What [p.Query] returns when the handler calls it. *)
Variable Query : P0fResponse * option error.

(** [DefaultIpResolver]. *)
Definition DefaultIpResolver (r : Request) : string := RemoteAddr r.

(** The handler [StartHttpWebServer] serves. *)
Definition handler (ipResolver : Request → string) (r : Request)
  : option net.IP * list call :=
  let w := [Header_Set "Connection" "close"] in
  if decide (Method r ≠ "GET") then
    (None, w ++ [Header_Set "Allow" "GET"; Error "" StatusMethodNotAllowed])
  else
    let '(ip, _, err) := SplitHostPort (ipResolver r) in
    match err with
    | Some _ => (None, w ++ [Error "invalid source address" StatusBadRequest])
    | None =>
        match ParseIP ip with
        | None =>
            (None, w ++ [Error "invalid source address" StatusBadRequest])
        | Some userIP =>
            let (response, err) := Query in
            match err with
            | Some e =>
                (Some userIP,
                 w ++ [Error ("query error: " +:+ e)
                         StatusInternalServerError])
            | None =>
                let w :=
                  w ++ [Header_Set "Content-Type"
                          "application/json; charset=UTF-8"] in
                let w :=
                  if Query_Has_p r then w ++ [SetIndent "" " "] else w in
                (Some userIP, w ++ [Encode response])
            end
        end
    end.

(** The handler inside the stand-alone [main], which reads
    [r.RemoteAddr] itself. *)
Definition main_handler (r : Request) : option net.IP * list call :=
  let w := [Header_Set "Connection" "close"] in
  if decide (Method r ≠ "GET") then
    (None, w ++ [Header_Set "Allow" "GET"; Error "" StatusMethodNotAllowed])
  else
    let '(ip, _, err) := SplitHostPort (RemoteAddr r) in
    match err with
    | Some _ => (None, w ++ [Error "invalid source address" StatusBadRequest])
    | None =>
        let userIP := ParseIP ip in
        match userIP with
        | None =>
            (None, w ++ [Error "invalid source address" StatusBadRequest])
        | Some userIP =>
            let (response, err) := Query in
            match err with
            | Some e =>
                (Some userIP,
                 w ++ [Error ("query error: " +:+ e)
                         StatusInternalServerError])
            | None =>
                let w :=
                  w ++ [Header_Set "Content-Type"
                          "application/json; charset=UTF-8"] in
                let w :=
                  if Query_Has_p r then w ++ [SetIndent "" " "] else w in
                (Some userIP, w ++ [Encode response])
            end
        end
    end.

End Handlers.
End http.

(** ** Sample data

    Concrete inputs on which the statements below are exercised. *)

(** A [[32]byte] holding [text] and zero bytes after it. *)
Definition pad32 (text : string) : list byte :=
  take 32 (String.list_byte_of_string text ++ replicate 32 x00).

Definition sample_cStr : list byte := pad32 "Linux".

Definition sample_ip : net.IP := [x01; x02; x03; x04].

(** A response as a little-endian daemon sends it, with the given bytes
    of magic and status: 234 bytes of fields and two bytes that fill the
    buffer. *)
Definition sample_frame (magic status : Z) : list byte :=
  let u32 := binary.PutUint32 LittleEndian (replicate 4 x00) in
  u32 magic ++ u32 status
  ++ u32 1700000000 ++ u32 1700000600 ++ u32 42 ++ u32 1234 ++ u32 49
  ++ u32 0 ++ u32 7
  ++ [x0b; x00] ++ [x01] ++ [x02]
  ++ pad32 "Linux" ++ pad32 "3.11 and newer" ++ pad32 "" ++ pad32 ""
  ++ [xdc; x05]
  ++ pad32 "Ethernet or modem" ++ pad32 ""
  ++ [x00; x00].

(** A stand-in for [ip.String()] in the runs below. *)
Definition sample_String (ip : net.IP) : string := "1.2.3.4".

Definition sample_io : Engine.exchange :=
  {| Engine.write_err := None;
     Engine.read := ReadOk (sample_frame magicBytesRcv resultOk) |}.

(** [n] callers, each running [Query] up to its [select]. *)
Definition queries_run (n : nat) : list Engine.event :=
  concat (imap (λ g _, [Engine.Call_Query sample_ip; Engine.Run g; Engine.Run g])
               (replicate n ())).

(** A first call of [Shutdown], run to its end. *)
Definition shutdown_run : list Engine.event :=
  [Engine.Call_Shutdown; Engine.Run 0; Engine.Run 0].

(** * Properties *)

(** ** Bytes and integers *)

Section integers.
Implicit Types (b : byte) (v : Z).

Lemma byte_to_Z_range b : 0 ≤ byte_to_Z b < 256.
Proof.
  unfold byte_to_Z. pose proof (Byte.to_N_bounded b). lia.
Qed.

Lemma byte_to_of_Z v : byte_to_Z (byte_of_Z v) = v `mod` 256.
Proof.
  unfold byte_to_Z, byte_of_Z.
  change 255 with (Z.ones 8). rewrite Z.land_ones by lia.
  change (2 ^ 8) with 256.
  pose proof (Z.mod_pos_bound v 256 eq_refl) as Hm.
  destruct (Byte.of_N (Z.to_N (v `mod` 256))) as [b|] eqn:Hb; simpl.
  - apply Byte.to_of_N in Hb. rewrite Hb. lia.
  - apply Byte.of_N_None_iff in Hb. lia.
Qed.

Lemma lor_shiftl_add a c n :
  0 ≤ n → 0 ≤ a < 2 ^ n → Z.lor a (Z.shiftl c n) = a + c * 2 ^ n.
Proof.
  intros Hn Ha. rewrite Z.shiftl_mul_pow2 by done.
  rewrite <- Z.lxor_lor, Z.add_nocarry_lxor; [done | |].
  all: apply Z.bits_inj'; intros k Hk; rewrite Z.land_spec, Z.bits_0.
  all: destruct (decide (k < n)).
  all: try (rewrite Z.mul_pow2_bits_low by lia; apply andb_false_r).
  all: rewrite <- (Z.mod_small a (2 ^ n)) by lia.
  all: rewrite Z.mod_pow2_bits_high by lia; done.
Qed.

Lemma Uint16_value o b0 b1 :
  binary.Uint16 o [b0; b1]
  = match o with
    | LittleEndian => byte_to_Z b0 + 256 * byte_to_Z b1
    | BigEndian => byte_to_Z b1 + 256 * byte_to_Z b0
    end.
Proof.
  pose proof (byte_to_Z_range b0). pose proof (byte_to_Z_range b1).
  destruct o; simpl; rewrite lor_shiftl_add; lia.
Qed.

Lemma Uint32_value o b0 b1 b2 b3 :
  binary.Uint32 o [b0; b1; b2; b3]
  = match o with
    | LittleEndian =>
        byte_to_Z b0 + 256 * byte_to_Z b1 + 65536 * byte_to_Z b2
        + 16777216 * byte_to_Z b3
    | BigEndian =>
        byte_to_Z b3 + 256 * byte_to_Z b2 + 65536 * byte_to_Z b1
        + 16777216 * byte_to_Z b0
    end.
Proof.
  pose proof (byte_to_Z_range b0). pose proof (byte_to_Z_range b1).
  pose proof (byte_to_Z_range b2). pose proof (byte_to_Z_range b3).
  destruct o; simpl.
  all: rewrite (lor_shiftl_add _ _ 8) by lia.
  all: rewrite (lor_shiftl_add _ _ 16) by lia.
  all: rewrite (lor_shiftl_add _ _ 24) by lia.
  all: lia.
Qed.

(** A [uint32] written by [PutUint32] is read back by [Uint32]. *)
Lemma Uint32_PutUint32 o (buf : list byte) v :
  length buf = 4%nat → 0 ≤ v < 2 ^ 32 →
  binary.Uint32 o (binary.PutUint32 o buf v) = v.
Proof.
  intros Hlen Hv.
  destruct buf as [|a0 [|a1 [|a2 [|a3 [|]]]]]; try done.
  destruct o; cbn [binary.PutUint32 insert list_insert].
  all: rewrite Uint32_value, !byte_to_of_Z, !Z.shiftr_div_pow2 by lia.
  all: change (2 ^ 8) with 256; change (2 ^ 16) with 65536;
    change (2 ^ 24) with 16777216; change (2 ^ 32) with 4294967296 in Hv.
  all: Z.div_mod_to_equations; lia.
Qed.
End integers.

Lemma Uint32_PutUint32_witness :
length (replicate 4 x00) = 4%nat ∧
0 ≤ magicBytesRcv < 2 ^ 32 ∧
binary.Uint32 BigEndian
  (binary.PutUint32 BigEndian (replicate 4 x00) magicBytesRcv)
= magicBytesRcv.
Proof.
split; [reflexivity|].
assert (Hv : 0 ≤ magicBytesRcv < 2 ^ 32) by (unfold magicBytesRcv; lia).
split; [exact Hv|].
exact (Uint32_PutUint32 BigEndian (replicate 4 x00) magicBytesRcv eq_refl Hv).
Defined.

Section ranges.
Variable native : ByteOrder.

Lemma slice_length off n (frame : list byte) :
  (off + n ≤ length frame)%nat → length (slice off n frame) = n.
Proof. intros H. unfold slice. rewrite length_take, length_drop. lia. Qed.

Lemma u32_at_range off (frame : list byte) :
  (off + 4 ≤ length frame)%nat → 0 ≤ u32_at native off frame < 2 ^ 32.
Proof.
  intros H. unfold u32_at. pose proof (slice_length off 4 frame H) as Hl.
  destruct (slice off 4 frame) as [|b0 [|b1 [|b2 [|b3 [|]]]]]; try done.
  rewrite Uint32_value.
  pose proof (byte_to_Z_range b0). pose proof (byte_to_Z_range b1).
  pose proof (byte_to_Z_range b2). pose proof (byte_to_Z_range b3).
  destruct native; lia.
Qed.

Lemma u16_at_range off (frame : list byte) :
  (off + 2 ≤ length frame)%nat → 0 ≤ u16_at native off frame < 2 ^ 16.
Proof.
  intros H. unfold u16_at. pose proof (slice_length off 2 frame H) as Hl.
  destruct (slice off 2 frame) as [|b0 [|b1 [|]]]; try done.
  rewrite Uint16_value.
  pose proof (byte_to_Z_range b0). pose proof (byte_to_Z_range b1).
  destruct native; lia.
Qed.
End ranges.

(** ** The decoders of [encoding/binary] *)

Section decoders.
Context {B : Type}.
Implicit Types (bs : list byte) (n : nat).

Lemma bind_bytes n (k : list byte → binary.decoder B) bs :
  (n ≤ length bs)%nat →
  binary.bind (binary.bytes n) k bs = k (take n bs) (drop n bs).
Proof. intros H. unfold binary.bind, binary.bytes. by rewrite decide_True. Qed.

Lemma bind_uint32 o (k : Z → binary.decoder B) bs :
  (4 ≤ length bs)%nat →
  binary.bind (binary.uint32 o) k bs
  = k (binary.Uint32 o (take 4 bs)) (drop 4 bs).
Proof.
  intros H. unfold binary.uint32, binary.bind, binary.bytes, binary.ret.
  by rewrite decide_True.
Qed.

Lemma bind_uint16 o (k : Z → binary.decoder B) bs :
  (2 ≤ length bs)%nat →
  binary.bind (binary.uint16 o) k bs
  = k (binary.Uint16 o (take 2 bs)) (drop 2 bs).
Proof.
  intros H. unfold binary.uint16, binary.bind, binary.bytes, binary.ret.
  by rewrite decide_True.
Qed.

Lemma bind_uint8 (k : byte → binary.decoder B) bs :
  (1 ≤ length bs)%nat →
  binary.bind binary.uint8 k bs = k (bs !!! 0%nat) (drop 1 bs).
Proof.
  intros H. destruct bs as [|b bs]; [simpl in H; lia | done].
Qed.
End decoders.

Lemma slice_of_prefix (off n m : nat) (data : list byte) :
  (off + n ≤ m)%nat → take n (drop off (take m data)) = slice off n data.
Proof.
  intros H. unfold slice.
  rewrite !take_drop_commute, take_take. do 2 f_equal. lia.
Qed.

Lemma lookup_total_of_prefix (off m : nat) (data : list byte) :
  (off < m)%nat → drop off (take m data) !!! 0%nat = u8_at off data.
Proof.
  intros H. unfold u8_at.
  rewrite !list_lookup_total_alt, lookup_drop, lookup_take_lt by lia.
  by rewrite Nat.add_0_r.
Qed.

Section layout.
Variable native : ByteOrder.

Lemma binary_Read_layout (data : list byte) :
  (r_Size ≤ length data)%nat →
  binary_Read native data = inl (r_at native data).
Proof.
  intros Hlen. unfold binary_Read. rewrite decide_True by done.
  change r_Size with 234%nat in *.
  assert (Hp : length (take 234 data) = 234%nat).
  { rewrite length_take. lia. }
  unfold decode_r, p0fStrMax, r_at, u32_at, u16_at.
  rewrite <- (drop_0 (take 234 data)) at 1.
  repeat first
    [ rewrite bind_uint32 by (rewrite length_drop; lia)
    | rewrite bind_uint16 by (rewrite length_drop; lia)
    | rewrite bind_uint8 by (rewrite length_drop; lia)
    | rewrite bind_bytes by (rewrite length_drop; lia)
    | rewrite drop_drop; simpl Nat.add ].
  unfold binary.ret.
  rewrite !slice_of_prefix, !lookup_total_of_prefix by lia.
  done.
Qed.
End layout.

(** ** The scan of [trstr] *)

Section trstr_facts.
Implicit Types (cStr : list byte) (i j k n : nat).

Lemma string_of_list_byte_length (l : list byte) :
  String.length (String.string_of_list_byte l) = length l.
Proof. induction l as [|b l IH]; simpl; [done | by rewrite <- IH]. Qed.

Lemma trstr_scan_found cStr n k i :
  (k ≤ i < k + n)%nat →
  cStr !!! i = x00 →
  (∀ j, (k ≤ j < i)%nat → cStr !!! j ≠ x00) →
  trstr_scan cStr k n = take i cStr.
Proof.
  revert k. induction n as [|n IH]; intros k Hi Hz Hnz; [lia|].
  simpl. destruct (decide (cStr !!! k = x00)) as [Hk|Hk].
  - destruct (decide (k = i)) as [->|Hne]; [done|].
    exfalso. apply (Hnz k); [lia | done].
  - destruct (decide (k = i)) as [->|Hne]; [done|].
    apply IH; [lia | done | intros j Hj; apply Hnz; lia].
Qed.

Lemma trstr_scan_full cStr n k :
  (∀ j, (k ≤ j < k + n)%nat → cStr !!! j ≠ x00) →
  trstr_scan cStr k n = cStr.
Proof.
  revert k. induction n as [|n IH]; intros k Hnz; [done|].
  simpl. rewrite decide_False by (apply Hnz; lia).
  apply IH. intros j Hj. apply Hnz. lia.
Qed.

Lemma trstr_scan_prefix cStr n k :
  (k + n = length cStr)%nat →
  (∀ j, (j < k)%nat → cStr !!! j ≠ x00) →
  ∃ m, trstr_scan cStr k n = take m cStr ∧ (k ≤ m ≤ length cStr)%nat ∧
       ∀ j, (j < m)%nat → cStr !!! j ≠ x00.
Proof.
  revert k. induction n as [|n IH]; intros k Hlen Hnz.
  - exists k. simpl. split; [|split; [lia | done]].
    rewrite take_ge; [done | lia].
  - simpl. destruct (decide (cStr !!! k = x00)) as [Hk|Hk].
    + exists k. split; [done | split; [lia | done]].
    + destruct (IH (S k)) as (m & Hm & Hle & Hall); [lia | |].
      * intros j Hj. destruct (decide (j = k)) as [->|]; [done|].
        apply Hnz. lia.
      * exists m. split; [done | split; [lia | done]].
Qed.
End trstr_facts.


(** ** Addresses *)

Lemma To4_Some (ip ip4 : net.IP) :
  net.To4 ip = Some ip4 →
  length ip4 = 4%nat ∧
  ((length ip = 4%nat ∧ ip4 = ip) ∨
   (length ip = 16%nat ∧ ip4 = slice 12 4 ip)).
Proof.
  unfold net.To4, net.IPv4len, net.IPv6len, slice.
  destruct (decide (length ip = 4%nat)) as [H4|H4].
  - intros [= <-]. auto.
  - destruct (decide (length ip = 16%nat)) as [H16|H16]; [|done].
    destruct (_ && _); [|done]. intros [= <-].
    rewrite length_take, length_drop. split; [lia | auto].
  Qed.

Lemma To4_None (ip : net.IP) :
  (length ip = 4 ∨ length ip = 16)%nat →
  net.To4 ip = None →
  length ip = 16%nat ∧ net.To16 ip = Some ip.
Proof.
  unfold net.To4, net.To16, net.IPv4len, net.IPv6len.
  intros Hlen. destruct (decide (length ip = 4%nat)) as [H4|H4]; [by intros ?|].
  destruct Hlen as [?|H16]; [lia|]. rewrite !decide_True by done. by intros _.
Qed.

Section request.
Variable native : ByteOrder.

(** C2: for an address of 4 or 16 bytes, [writeRequest] hands the
    connection a frame of exactly 21 bytes. Bytes 0-3 are the magic
    constant 0x50304601 written in native byte order (and read back as
    that value). When the address is an IPv4 address ([To4] answers its
    four bytes [ip4], from the 4-byte form or from the IPv4-mapped 16-byte
    form), byte 4 is 4, bytes 5-8 are [ip4] and bytes 9-20 are zero.
    Otherwise it is an IPv6 address, byte 4 is 6 and bytes 5-20 are the
    16 bytes of the address. *)
Theorem writeRequest_frame (wr : option error) (ip : net.IP) :
  (length ip = 4 ∨ length ip = 16)%nat →
  let frame := (writeRequest native wr ip).1 in
  length frame = 21%nat ∧
  slice 0 4 frame
    = binary.PutUint32 native (replicate 4 x00) magicBytesSend ∧
  u32_at native 0 frame = 0x50304601 ∧
  (∀ ip4, net.To4 ip = Some ip4 →
     frame !! 4%nat = Some x04 ∧
     slice 5 4 frame = ip4 ∧
     slice 9 12 frame = replicate 12 x00) ∧
  (net.To4 ip = None →
     frame !! 4%nat = Some x06 ∧
     slice 5 16 frame = ip).
Proof.
  intros Hlen. unfold writeRequest, u32_at. cbn [fst]. unfold requestFrame.
  destruct (net.To4 ip) as [ip4|] eqn:E.
  - apply To4_Some in E as [Hl4 _].
    destruct ip4 as [|a [|b [|c [|d [|]]]]]; try done.
    split; [by destruct native|].
    split; [by destruct native|].
    split; [by destruct native|].
    split; [|done].
    intros ? [= <-]. by destruct native.
  - apply To4_None in E as [Hl E]; [|done]. rewrite E. cbn [default].
    do 17 (destruct ip as [|? ip]; try done).
    split; [by destruct native|].
    split; [by destruct native|].
    split; [by destruct native|].
    split; [done|].
    intros _. by destruct native.
Qed.
End request.

Lemma writeRequest_frame_witness :
(length sample_ip = 4 ∨ length sample_ip = 16)%nat ∧
(writeRequest LittleEndian None sample_ip).1
= [x01; x46; x30; x50; x04; x01; x02; x03; x04]
  ++ replicate 12 x00.
Proof.
split; [left; reflexivity|].
pose proof (writeRequest_frame LittleEndian None sample_ip
              (or_introl eq_refl)) as (Hlen & Hmagic & _ & Hv4 & _).
destruct (Hv4 sample_ip eq_refl) as (Hfam & Haddr & Hzero).
reflexivity.
Defined.

(** ** Responses *)

Section response.
Variable native : ByteOrder.
Implicit Types (ip : string) (frame : list byte).

Lemma fill_buffer_length (data : list byte) :
  length (fill_buffer data) = responseSize.
Proof.
  unfold fill_buffer. rewrite length_take, length_app, length_replicate. lia.
Qed.

Lemma fill_buffer_full frame :
  length frame = responseSize → fill_buffer frame = frame.
Proof.
  intros H. unfold fill_buffer. rewrite take_app_le by lia.
  apply take_ge. lia.
Qed.

(** [readResponse] on a full frame, as a function of the magic and the
    status the frame carries. *)
Lemma readResponse_frame ip frame :
  length frame = responseSize →
  readResponse native (ReadOk frame) ip
  = if decide (u32_at native 0 frame ≠ magicBytesRcv) then
      (P0fResponse_zero, Some "invalid magic bytes in response")
    else if decide (u32_at native 4 frame = resultOk) then
      (result_at native ip frame, None)
    else if decide (u32_at native 4 frame = resultBadQuery) then
      (P0fResponse_zero, Some "bad query")
    else if decide (u32_at native 4 frame = resultNoMatch) then
      (P0fResponse_zero, Some "no match")
    else
      (P0fResponse_zero,
       Some ("unknown response code " +:+ format_d (u32_at native 4 frame))).
Proof.
  intros Hlen. unfold readResponse. rewrite fill_buffer_full by done.
  unfold decodeResponse. rewrite binary_Read_layout.
  - done.
  - rewrite Hlen. unfold r_Size, responseSize. lia.
Qed.

(** C3: the decoding of a 32-byte string buffer. [trstr] answers nil when
    byte 0 is zero; the first [i] bytes as a string when the first zero
    byte is at offset [i], 1 <= i < 32; and all 32 bytes when no byte is
    zero. The six string fields of a response (OS name, OS flavor, HTTP
    name, HTTP flavor, link type, language) are each [trstr] of the 32
    bytes at the field's offset, so the rule is the same for all six. *)
Theorem trstr_decode (cStr : list byte) :
  length cStr = p0fStrMax →
  (cStr !!! 0%nat = x00 → trstr cStr = None) ∧
  (∀ i : nat, (1 ≤ i < 32)%nat → cStr !!! i = x00 →
     (∀ j : nat, (j < i)%nat → cStr !!! j ≠ x00) →
     trstr cStr = Some (String.string_of_list_byte (take i cStr))) ∧
  ((∀ j : nat, (j < 32)%nat → cStr !!! j ≠ x00) →
     trstr cStr = Some (String.string_of_list_byte cStr)) ∧
  (∀ ip frame,
     length frame = responseSize →
     u32_at native 0 frame = magicBytesRcv →
     u32_at native 4 frame = resultOk →
     let resp := (readResponse native (ReadOk frame) ip).1 in
     OsName resp = trstr (slice 40 32 frame) ∧
     OsFlavor resp = trstr (slice 72 32 frame) ∧
     HttpName resp = trstr (slice 104 32 frame) ∧
     HttpFlavor resp = trstr (slice 136 32 frame) ∧
     LinkType resp = trstr (slice 170 32 frame) ∧
     Language resp = trstr (slice 202 32 frame)).
Proof.
  intros Hlen. unfold p0fStrMax in Hlen.
  split; [|split; [|split]].
  - intros H0. unfold trstr. by rewrite decide_True.
  - intros i Hi Hz Hnz. unfold trstr. rewrite Hlen.
    rewrite decide_False by (apply Hnz; lia).
    do 2 f_equal.
    apply trstr_scan_found; [lia | done | intros j Hj; apply Hnz; lia].
  - intros Hnz. unfold trstr. rewrite Hlen.
    rewrite decide_False by (apply Hnz; lia).
    do 2 f_equal. apply trstr_scan_full. intros j Hj. apply Hnz. lia.
  - intros ip frame Hf Hmagic Hstatus.
    rewrite readResponse_frame by done.
    rewrite decide_False by (by intros []).
    by rewrite decide_True.
Qed.

(** C10: a string that [trstr] answers for a 32-byte buffer has between 1
    and 32 bytes, none of them zero; in particular it is never the empty
    string, so nil and the empty string are never both decoded values. *)
Theorem trstr_present_nonempty (cStr : list byte) (s : string) :
  length cStr = p0fStrMax →
  trstr cStr = Some s →
  (1 ≤ String.length s ≤ 32)%nat ∧
  (x00 ∉ String.list_byte_of_string s) ∧
  s ≠ "".
Proof.
  intros Hlen. unfold p0fStrMax in Hlen. unfold trstr.
  destruct (decide (cStr !!! 0%nat = x00)) as [|H0]; [done|].
  intros [= <-].
  destruct (trstr_scan_prefix cStr (length cStr - 1) 1)
    as (m & -> & Hm & Hall).
  { lia. }
  { intros j Hj. by replace j with 0%nat by lia. }
  assert (Hl : String.length (String.string_of_list_byte (take m cStr)) = m).
  { rewrite string_of_list_byte_length, length_take. lia. }
  split; [lia|]. split.
  - rewrite String.list_byte_of_string_of_list_byte.
    intros [j Hj]%list_elem_of_lookup.
    apply lookup_take_Some in Hj as [Hj Hlt].
    apply (Hall j Hlt). by apply list_lookup_total_correct.
  - intros Hs. rewrite Hs in Hl. simpl in Hl. lia.
Qed.

(** C4: on a full 236-byte frame whose magic is right, [readResponse]
    goes by the status. Status 0x10: the decoded result and a nil error.
    Status 0x00: the error [bad query] and the zero result. Status 0x20:
    the error [no match] and the zero result. Any other status: the error
    [unknown response code N] and the zero result. *)
Theorem readResponse_status ip frame :
  length frame = responseSize →
  u32_at native 0 frame = magicBytesRcv →
  let status := u32_at native 4 frame in
  let result := readResponse native (ReadOk frame) ip in
  (status = 0x10 → result = (result_at native ip frame, None)) ∧
  (status = 0x00 → result = (P0fResponse_zero, Some "bad query")) ∧
  (status = 0x20 → result = (P0fResponse_zero, Some "no match")) ∧
  (status ≠ 0x10 → status ≠ 0x00 → status ≠ 0x20 →
     result = (P0fResponse_zero,
               Some ("unknown response code " +:+ format_d status))).
Proof.
  intros Hlen Hmagic status result. subst status result.
  rewrite readResponse_frame by done.
  rewrite decide_False by (by intros []).
  unfold resultOk, resultBadQuery, resultNoMatch.
  repeat split; intros; repeat case_decide; done || lia.
Qed.

(** C5: on a full 236-byte frame with the right magic and status 0x10,
    the numeric fields of the result are the values the frame holds at
    their fixed offsets, read in native byte order: the seven 32-bit
    fields at bytes 8-35, the 16-bit distance at 36, the lying flag at 38,
    the match quality at 39, and the 16-bit link MTU right after the four
    32-byte string buffers that start at 40. *)
Theorem readResponse_numeric ip frame :
  length frame = responseSize →
  u32_at native 0 frame = magicBytesRcv →
  u32_at native 4 frame = 0x10 →
  let resp := (readResponse native (ReadOk frame) ip).1 in
  FirstSeen resp = u32_at native 8 frame ∧
  LastSeen resp = u32_at native 12 frame ∧
  TotalCount resp = u32_at native 16 frame ∧
  UptimeMin resp = u32_at native 20 frame ∧
  UpModDays resp = u32_at native 24 frame ∧
  LastNat resp = u32_at native 28 frame ∧
  LastChg resp = u32_at native 32 frame ∧
  Distance resp = u16_at native 36 frame ∧
  BadSw resp = u8_at 38 frame ∧
  OsMatchQ resp = u8_at 39 frame ∧
  LinkMtu resp = u16_at native (40 + 4 * 32) frame.
Proof.
  intros Hlen Hmagic Hstatus.
  rewrite readResponse_frame by done.
  rewrite decide_False by (by intros []).
  by rewrite decide_True.
Qed.

(** C6: on a full 236-byte frame whose first four bytes are not the magic
    constant 0x50304602 in native byte order, [readResponse] answers the
    error [invalid magic bytes in response] and the zero result, whatever
    the status and the other bytes are. *)
Theorem readResponse_bad_magic ip frame :
  length frame = responseSize →
  u32_at native 0 frame ≠ magicBytesRcv →
  readResponse native (ReadOk frame) ip
  = (P0fResponse_zero, Some "invalid magic bytes in response").
Proof.
  intros Hlen Hmagic. rewrite readResponse_frame by done.
  by rewrite decide_True.
Qed.
(** [binary.Read] decodes the 234 bytes of [r]: the last two bytes of the
    236-byte buffer never reach the result. *)
Theorem readResponse_ignores_tail (ip : string) (frame1 frame2 : list byte) :
length frame1 = responseSize →
length frame2 = responseSize →
take r_Size frame1 = take r_Size frame2 →
readResponse native (ReadOk frame1) ip
= readResponse native (ReadOk frame2) ip.
Proof.
intros H1 H2 Heq. unfold readResponse.
rewrite !fill_buffer_full by done.
unfold decodeResponse, binary_Read.
rewrite !decide_True by (rewrite ?H1, ?H2; unfold r_Size, responseSize; lia).
by rewrite Heq.
Qed.
End response.

Lemma trstr_decode_witness :
length sample_cStr = p0fStrMax ∧
trstr sample_cStr = Some "Linux" ∧
trstr (replicate 32 x00) = None ∧
trstr (replicate 32 x41) = Some "AAAAAAAAAAAAAAAAAAAAAAAAAAAAAAAA".
Proof.
split; [reflexivity|].
destruct (trstr_decode LittleEndian sample_cStr eq_refl)
  as (_ & Hcut & _ & _).
destruct (trstr_decode LittleEndian (replicate 32 x00) eq_refl)
  as (Hnil & _ & _ & _).
destruct (trstr_decode LittleEndian (replicate 32 x41) eq_refl)
  as (_ & _ & Hfull & _).
split; [|split].
- apply (Hcut 5%nat); [lia | reflexivity |].
  intros j Hj. do 5 (destruct j as [|j]; [done|]). lia.
- apply Hnil. reflexivity.
- apply Hfull. intros j Hj. do 32 (destruct j as [|j]; [done|]). lia.
Defined.

Lemma trstr_present_nonempty_witness :
length sample_cStr = p0fStrMax ∧
trstr sample_cStr = Some "Linux" ∧
(1 ≤ String.length "Linux" ≤ 32)%nat ∧
(x00 ∉ String.list_byte_of_string "Linux").
Proof.
split; [reflexivity|]. split; [reflexivity|].
destruct (trstr_present_nonempty sample_cStr "Linux" eq_refl eq_refl)
  as (Hlen & Hzero & _).
split; [exact Hlen | exact Hzero].
Defined.

Lemma readResponse_status_witness :
let frame := sample_frame magicBytesRcv in
length (frame 0x10) = responseSize ∧
u32_at LittleEndian 0 (frame 0x10) = magicBytesRcv ∧
(readResponse LittleEndian (ReadOk (frame 0x10)) "1.2.3.4").2 = None ∧
readResponse LittleEndian (ReadOk (frame 0x00)) "1.2.3.4"
= (P0fResponse_zero, Some "bad query") ∧
readResponse LittleEndian (ReadOk (frame 0x20)) "1.2.3.4"
= (P0fResponse_zero, Some "no match") ∧
readResponse LittleEndian (ReadOk (frame 0x30)) "1.2.3.4"
= (P0fResponse_zero, Some "unknown response code 48").
Proof.
intros frame. split; [reflexivity|]. split; [reflexivity|].
destruct (readResponse_status LittleEndian "1.2.3.4" (frame 0x10)
            eq_refl eq_refl) as (Hok & _).
destruct (readResponse_status LittleEndian "1.2.3.4" (frame 0x00)
            eq_refl eq_refl) as (_ & Hbad & _).
destruct (readResponse_status LittleEndian "1.2.3.4" (frame 0x20)
            eq_refl eq_refl) as (_ & _ & Hnone & _).
destruct (readResponse_status LittleEndian "1.2.3.4" (frame 0x30)
            eq_refl eq_refl) as (_ & _ & _ & Hunknown).
split; [by rewrite Hok|]. split; [by apply Hbad|]. split; [by apply Hnone|].
by apply Hunknown.
Defined.

Lemma readResponse_numeric_witness :
let frame := sample_frame magicBytesRcv resultOk in
let resp := (readResponse LittleEndian (ReadOk frame) "1.2.3.4").1 in
length frame = responseSize ∧
u32_at LittleEndian 4 frame = 0x10 ∧
FirstSeen resp = 1700000000 ∧ LastSeen resp = 1700000600 ∧
TotalCount resp = 42 ∧ UptimeMin resp = 1234 ∧ UpModDays resp = 49 ∧
LastNat resp = 0 ∧ LastChg resp = 7 ∧ Distance resp = 11 ∧
BadSw resp = x01 ∧ OsMatchQ resp = x02 ∧ LinkMtu resp = 1500.
Proof.
intros frame resp. split; [reflexivity|]. split; [reflexivity|].
destruct (readResponse_numeric LittleEndian "1.2.3.4" frame
            eq_refl eq_refl eq_refl)
  as (H1 & H2 & H3 & H4 & H5 & H6 & H7 & H8 & H9 & H10 & H11).
repeat apply conj.
- by transitivity (u32_at LittleEndian 8 frame).
- by transitivity (u32_at LittleEndian 12 frame).
- by transitivity (u32_at LittleEndian 16 frame).
- by transitivity (u32_at LittleEndian 20 frame).
- by transitivity (u32_at LittleEndian 24 frame).
- by transitivity (u32_at LittleEndian 28 frame).
- by transitivity (u32_at LittleEndian 32 frame).
- by transitivity (u16_at LittleEndian 36 frame).
- by transitivity (u8_at 38 frame).
- by transitivity (u8_at 39 frame).
- by transitivity (u16_at LittleEndian (40 + 4 * 32) frame).
Defined.

Lemma readResponse_bad_magic_witness :
let frame := sample_frame magicBytesSend resultOk in
length frame = responseSize ∧
u32_at LittleEndian 0 frame ≠ magicBytesRcv ∧
readResponse LittleEndian (ReadOk frame) "1.2.3.4"
= (P0fResponse_zero, Some "invalid magic bytes in response").
Proof.
intros frame. split; [reflexivity|].
assert (Hmagic : u32_at LittleEndian 0 frame ≠ magicBytesRcv)
  by (vm_compute; discriminate).
split; [exact Hmagic|].
exact (readResponse_bad_magic LittleEndian "1.2.3.4" frame eq_refl Hmagic).
Defined.

Lemma readResponse_ignores_tail_witness :
let frame1 := sample_frame magicBytesRcv resultOk in
let frame2 := take 234 frame1 ++ [xff; xff] in
length frame1 = responseSize ∧ length frame2 = responseSize ∧
frame1 ≠ frame2 ∧
readResponse LittleEndian (ReadOk frame1) "1.2.3.4"
= readResponse LittleEndian (ReadOk frame2) "1.2.3.4".
Proof.
intros frame1 frame2.
split; [reflexivity|]. split; [reflexivity|].
split; [by vm_compute|].
exact (readResponse_ignores_tail LittleEndian "1.2.3.4" frame1 frame2
         eq_refl eq_refl eq_refl).
Defined.

(** ** Edges of the codec *)

Lemma To16_Some (ip ip16 : net.IP) :
net.To16 ip = Some ip16 → length ip16 = 16%nat.
Proof.
unfold net.To16, net.IPv4len, net.IPv6len.
destruct (decide (length ip = 4%nat)); [by intros [= <-]|].
destruct (decide (length ip = 16%nat)); [|done]. by intros [= <-].
Qed.

Lemma To4_To16_None (ip : net.IP) :
length ip ≠ 4%nat → length ip ≠ 16%nat →
net.To4 ip = None ∧ net.To16 ip = None.
Proof.
intros H4 H16. unfold net.To4, net.To16, net.IPv4len, net.IPv6len.
by rewrite !decide_False by done.
Qed.

Section request_edges.
Variable native : ByteOrder.

(** Any byte slice at all may stand for the address. *)
Theorem writeRequest_any_ip (wr : option error) (ip : net.IP) :
let frame := (writeRequest native wr ip).1 in
length frame = requestSize ∧
u32_at native 0 frame = magicBytesSend ∧
(∀ ip4, net.To4 ip = Some ip4 → (5 + length ip4 ≤ requestSize)%nat) ∧
(∀ ip16, net.To16 ip = Some ip16 → (5 + length ip16 ≤ requestSize)%nat) ∧
(length ip ≠ 4%nat → length ip ≠ 16%nat →
 frame !! 4%nat = Some ipv6Dword ∧ slice 5 16 frame = replicate 16 x00).
Proof.
cbn zeta. unfold writeRequest. cbn [fst].
split; [|split; [|split; [|split]]].
- unfold requestFrame.
  destruct (net.To4 ip) as [ip4|] eqn:E4.
  + apply To4_Some in E4 as [Hl _].
    destruct ip4 as [|a [|b [|c [|d [|]]]]]; try done. by destruct native.
  + destruct (net.To16 ip) as [ip16|] eqn:E16; [|by destruct native].
    apply To16_Some in E16.
    do 17 (destruct ip16 as [|? ip16]; try done). by destruct native.
- unfold requestFrame, u32_at.
  destruct (net.To4 ip) as [ip4|] eqn:E4.
  + apply To4_Some in E4 as [Hl _].
    destruct ip4 as [|a [|b [|c [|d [|]]]]]; try done. by destruct native.
  + destruct (net.To16 ip) as [ip16|] eqn:E16; [|by destruct native].
    apply To16_Some in E16.
    do 17 (destruct ip16 as [|? ip16]; try done). by destruct native.
- intros ip4 [Hl _]%To4_Some. unfold requestSize. lia.
- intros ip16 Hl%To16_Some. unfold requestSize. lia.
- intros H4 H16. unfold requestFrame.
  destruct (To4_To16_None ip H4 H16) as [-> ->]. by destruct native.
Qed.

(** The two forms of an IPv4 address, 4 bytes and IPv4-mapped 16 bytes,
    are sent as the same frame. *)
Theorem writeRequest_IPv4_forms (wr : option error) (a b c d : byte) :
writeRequest native wr [a; b; c; d]
= writeRequest native wr (net.IPv4 a b c d).
Proof.
unfold writeRequest, requestFrame.
assert (H4 : net.To4 (net.IPv4 a b c d) = Some [a; b; c; d]) by done.
by rewrite H4.
Qed.
End request_edges.

Lemma writeRequest_any_ip_witness :
let frame := (writeRequest BigEndian None []).1 in
length ([] : net.IP) ≠ 4%nat ∧ length ([] : net.IP) ≠ 16%nat ∧
frame = [x50; x30; x46; x01; x06] ++ replicate 16 x00.
Proof.
intros frame.
assert (H4 : length ([] : net.IP) ≠ 4%nat) by (simpl; lia).
assert (H16 : length ([] : net.IP) ≠ 16%nat) by (simpl; lia).
split; [exact H4|]. split; [exact H16|].
destruct (writeRequest_any_ip BigEndian None []) as (_ & _ & _ & _ & Hnil).
destruct (Hnil H4 H16) as [Hfam Hzero]. reflexivity.
Defined.

Lemma trstr_padded (b : list byte) :
x00 ∉ b → (0 < length b ≤ 32)%nat →
trstr (take 32 (b ++ replicate 32 x00))
= Some (String.string_of_list_byte b).
Proof.
intros Hz Hlen.
assert (Hpad : length (take 32 (b ++ replicate 32 x00)) = 32%nat).
{ rewrite length_take, length_app, length_replicate. lia. }
assert (Hlook : ∀ j, (j < length b)%nat →
          take 32 (b ++ replicate 32 x00) !!! j = b !!! j).
{ intros j Hj. rewrite !list_lookup_total_alt.
  by rewrite lookup_take_lt, lookup_app_l by lia. }
assert (Hnz : ∀ j, (j < length b)%nat → b !!! j ≠ x00).
{ intros j Hj E. apply Hz. rewrite <- E. by apply list_elem_of_lookup_total_2. }
unfold trstr. rewrite decide_False by (rewrite Hlook by lia; apply Hnz; lia).
rewrite Hpad. do 2 f_equal.
destruct (decide (length b = 32%nat)) as [Hfull|Hshort].
- rewrite take_app_le, take_ge by lia.
  apply trstr_scan_full. intros j Hj. apply Hnz. lia.
- rewrite (trstr_scan_found _ _ _ (length b)).
  + rewrite take_take, Nat.min_l by lia. by rewrite take_app_length.
  + lia.
  + rewrite list_lookup_total_alt, lookup_take_lt by lia.
    rewrite lookup_app_r, Nat.sub_diag by lia. done.
  + intros j Hj. rewrite Hlook by lia. apply Hnz. lia.
Qed.

(** A text stored the way the daemon stores it, zero-padded in 32 bytes,
    is decoded back unchanged; the empty text comes back as nil. *)
Theorem trstr_pad32 (text : string) :
x00 ∉ String.list_byte_of_string text →
(length (String.list_byte_of_string text) ≤ 32)%nat →
trstr (pad32 text) = if decide (text = "") then None else Some text.
Proof.
intros Hz Hlen. unfold pad32.
destruct text as [|a text'] eqn:E; [done|].
rewrite decide_False by done. rewrite <- E in *.
rewrite trstr_padded; [|done|].
- by rewrite String.string_of_list_byte_of_string.
- split; [|done]. rewrite E. simpl. lia.
Qed.

Lemma trstr_pad32_witness :
(x00 ∉ String.list_byte_of_string "Ethernet or modem") ∧
(length (String.list_byte_of_string "Ethernet or modem") ≤ 32)%nat ∧
trstr (pad32 "Ethernet or modem") = Some "Ethernet or modem".
Proof.
assert (Hz : x00 ∉ String.list_byte_of_string "Ethernet or modem").
{ rewrite list_elem_of_In. simpl. intuition discriminate. }
assert (Hlen : (length (String.list_byte_of_string "Ethernet or modem")
                ≤ 32)%nat) by (simpl; lia).
split; [exact Hz|]. split; [exact Hlen|].
exact (trstr_pad32 "Ethernet or modem" Hz Hlen).
Defined.

Section response_edges.
Variable native : ByteOrder.
Implicit Types (ip : string) (data : list byte).

(** [Read] fills the front of the buffer: decoding what it delivered is
    decoding the full buffer. *)
Lemma readResponse_fill ip data :
readResponse native (ReadOk data) ip
= readResponse native (ReadOk (fill_buffer data)) ip.
Proof.
unfold readResponse.
by rewrite (fill_buffer_full (fill_buffer data)) by apply fill_buffer_length.
Qed.

(** What [readResponse] can answer. With an error the result is the zero
    value; without one the read succeeded, the frame had the right magic
    and status 0x10, and the result carries the address asked for. The
    error is that of [Read] or one of the four of the decoding:
    [binary.Read] itself never fails on the buffer. *)
Theorem readResponse_outcomes (rd : read_outcome) ip :
match readResponse native rd ip with
| (resp, None) =>
    ∃ data, rd = ReadOk data ∧
            u32_at native 0 (fill_buffer data) = magicBytesRcv ∧
            u32_at native 4 (fill_buffer data) = resultOk ∧
            resp = result_at native ip (fill_buffer data) ∧
            Ip resp = ip
| (resp, Some e) =>
    resp = P0fResponse_zero ∧
    (rd = ReadErr e ∨
     e = "invalid magic bytes in response" ∨
     e = "bad query" ∨
     e = "no match" ∨
     ∃ status, status ≠ resultOk ∧
               e = "unknown response code " +:+ format_d status)
end.
Proof.
destruct rd as [e|data]; [simpl; auto|].
rewrite readResponse_fill, readResponse_frame by apply fill_buffer_length.
repeat case_decide; try (split; [done|]; by auto 6).
- exists data. repeat split; try done.
- split; [done|]. do 4 right. eauto.
Qed.

(** A [Read] that succeeds with fewer than four bytes (an empty read
    among them) leaves the magic incomplete: the exchange ends in the
    magic error, in either byte order. *)
Theorem readResponse_short_read ip data :
(length data < 4)%nat →
readResponse native (ReadOk data) ip
= (P0fResponse_zero, Some "invalid magic bytes in response").
Proof.
intros Hlen.
rewrite readResponse_fill, readResponse_frame by apply fill_buffer_length.
rewrite decide_True; [done|].
unfold u32_at, magicBytesRcv.
destruct data as [|a [|b [|c [|]]]]; try (simpl in Hlen; lia).
- change (slice 0 4 (fill_buffer [])) with [x00; x00; x00; x00].
  by destruct native.
- change (slice 0 4 (fill_buffer [a])) with [a; x00; x00; x00].
  rewrite Uint32_value. pose proof (byte_to_Z_range a).
  change (byte_to_Z x00) with 0. destruct native; lia.
- change (slice 0 4 (fill_buffer [a; b])) with [a; b; x00; x00].
  rewrite Uint32_value.
  pose proof (byte_to_Z_range a). pose proof (byte_to_Z_range b).
  change (byte_to_Z x00) with 0. destruct native; lia.
- change (slice 0 4 (fill_buffer [a; b; c])) with [a; b; c; x00].
  rewrite Uint32_value.
  pose proof (byte_to_Z_range a). pose proof (byte_to_Z_range b).
  pose proof (byte_to_Z_range c).
  change (byte_to_Z x00) with 0. destruct native; lia.
Qed.
End response_edges.

Lemma readResponse_short_read_witness :
(length [x02; x46; x30] < 4)%nat ∧
readResponse LittleEndian (ReadOk [x02; x46; x30]) "1.2.3.4"
= (P0fResponse_zero, Some "invalid magic bytes in response").
Proof.
assert (H : (length [x02; x46; x30] < 4)%nat) by (simpl; lia).
split; [exact H|].
exact (readResponse_short_read LittleEndian "1.2.3.4" [x02; x46; x30] H).
Defined.

(** ** The engine *)

Module EngineFacts.
Import Engine.

Lemma filter_closing_app (l : list caller) (c : caller) :
  length (List.filter is_closing (l ++ [c]))
  = (length (List.filter is_closing l) + Nat.b2n (is_closing c))%nat.
Proof.
  rewrite List.filter_app, length_app. simpl. by destruct (is_closing c).
Qed.

Lemma filter_closing_insert (l : list caller) (g : nat) (c c' : caller) :
  l !! g = Some c →
  (length (List.filter is_closing (<[g := c']> l)) + Nat.b2n (is_closing c)
   = length (List.filter is_closing l) + Nat.b2n (is_closing c'))%nat.
Proof.
  revert g. induction l as [|x l IH]; intros [|g] Hg; simplify_eq/=.
  - destruct (is_closing c), (is_closing c'); simpl; lia.
  - specialize (IH g Hg). destruct (is_closing x); simpl; lia.
Qed.


(** What one step of a caller does to the shared state. *)
Lemma caller_step_callers g c s :
callers (caller_step g c s) = callers s ∨
∃ c', callers (caller_step g c s) = <[g := c']> (callers s).
Proof.
destruct c; simpl; auto.
- destruct (shutdown s); simpl; eauto.
- destruct (queueClosed s); [|case_decide]; simpl; eauto.
- destruct (heap s !! request) as [r|]; [|auto].
  case_decide; simpl; eauto.
- destruct (shutdown s); simpl; eauto.
- destruct (queueClosed s); simpl; eauto.
Qed.

Lemma caller_step_heap g c s :
heap (caller_step g c s) = heap s ∨
∃ r, heap (caller_step g c s) = heap s ++ [r].
Proof.
destruct c; simpl; auto.
- destruct (shutdown s); simpl; eauto.
- destruct (queueClosed s); [|case_decide]; simpl; eauto.
- destruct (heap s !! request) as [r|]; [|auto].
  case_decide; simpl; eauto.
- destruct (shutdown s); simpl; eauto.
- destruct (queueClosed s); simpl; eauto.
Qed.

Lemma caller_step_work g c s : work (caller_step g c s) = work s.
Proof.
destruct c; simpl; auto.
- by destruct (shutdown s).
- by destruct (queueClosed s); [|case_decide].
- destruct (heap s !! request) as [r|]; [|auto]. by case_decide.
- by destruct (shutdown s).
- by destruct (queueClosed s).
Qed.

Lemma caller_step_shutdown g c s :
shutdown s = true → shutdown (caller_step g c s) = true.
Proof.
intros Hs. destruct c; simpl; auto.
- by rewrite Hs.
- by destruct (queueClosed s); [|case_decide].
- destruct (heap s !! request) as [r|]; [|auto]. by case_decide.
- by rewrite Hs.
- by destruct (queueClosed s).
Qed.

Lemma caller_step_queueClosed g c s :
queueClosed s = true → queueClosed (caller_step g c s) = true.
Proof.
intros Hs. destruct c; simpl; auto.
- by destruct (shutdown s).
- by rewrite Hs.
- destruct (heap s !! request) as [r|]; [|auto]. by case_decide.
- by destruct (shutdown s).
- by destruct (queueClosed s).
Qed.

Section facts.
Variable native : ByteOrder.
Variable IP_String : net.IP → string.

Abbreviation step := (step native IP_String).
Abbreviation exec := (exec native IP_String).
Abbreviation start_step := (start_step native IP_String).

Lemma exec_cons e tr s : exec (e :: tr) s = exec tr (step e s).
Proof. done. Qed.

Lemma exec_app tr1 tr2 s : exec (tr1 ++ tr2) s = exec tr2 (exec tr1 s).
Proof. apply foldl_app. Qed.

Lemma inv_New : inv New.
Proof. split; simpl; try done. unfold requestChanSize. lia. Qed.

Lemma inv_step e s : inv s → inv (step e s).
Proof.
  intros Hinv. destruct (Hinv) as [Hcap Hwin Hlog Hconn].
  unfold closing in Hwin.
  destruct e as [ip| |g|io]; simpl.
  - split; simpl; try done. unfold closing. simpl.
    rewrite filter_closing_app. simpl. lia.
  - split; simpl; try done. unfold closing. simpl.
    rewrite filter_closing_app. simpl. lia.
  - destruct (callers s !! g) as [c|] eqn:Hg; [|by split].
    pose proof (λ c', filter_closing_insert _ _ _ c' Hg) as Hins.
    destruct c as [ip|ip|p|resp e|m| | |]; simpl; try by split.
    + destruct (shutdown s) eqn:Hs; split; simpl; try done.
      all: unfold closing; simpl.
      all: at_insert Hins; simpl in Hins; rewrite ?Hs; simpl in *; lia.
    + destruct (queueClosed s) eqn:Hc; [|case_decide].
      all: split; simpl; try done.
      all: try (rewrite length_app; simpl; unfold requestChanSize in *; lia).
      all: unfold closing; simpl.
      all: at_insert Hins; simpl in Hins; rewrite ?Hc; simpl in *; lia.
    + destruct (heap s !! p) as [r|]; [|by split].
      case_decide; [|by split].
      split; simpl; try done. unfold closing; simpl.
      at_insert Hins; simpl in Hins; lia.
    + destruct (shutdown s) eqn:Hs; split; simpl; try done.
      all: unfold closing; simpl.
      all: at_insert Hins; simpl in Hins; rewrite ?Hs.
      all: destruct (queueClosed s); simpl in *; lia.
    + specialize (Hins Shutdown_return). simpl in Hins.
      destruct (queueClosed s) eqn:Hc, (shutdown s) eqn:Hs; simpl in *;
        try lia.
      split; simpl; try done. unfold closing; simpl. lia.
  - unfold start_step.
    destruct (work s) as [| |p|] eqn:Hw; [| | |exact Hinv].
    all: assert (Hopen : connOpen s ≠ false)
      by (intros Hc; by apply Hconn in Hc).
    + destruct (shutdown s) eqn:Hs; split; simpl; rewrite ?Hs; done.
    + destruct (requestQueue s) as [|p rest] eqn:Hq.
      * destruct (queueClosed s) eqn:Hc; [|exact Hinv].
        split; simpl; rewrite ?Hq, ?Hc; simpl; try done; lia.
      * split; simpl; try done. simpl in Hcap. lia.
    + destruct (heap s !! p) as [r|]; [|exact Hinv].
      split; simpl; done.
Qed.

Lemma inv_exec tr s : inv s → inv (exec tr s).
Proof.
  revert s. induction tr as [|e tr IH]; intros s Hs; [done|].
  rewrite exec_cons. apply IH, inv_step, Hs.
Qed.

Lemma start_step_callers io s : callers (start_step io s) = callers s.
Proof.
unfold Engine.start_step. destruct (work s); simpl; try done.
- by destruct (shutdown s).
- destruct (requestQueue s); [|done]. by destruct (queueClosed s).
- by destruct (heap s !! request).
Qed.

Lemma start_step_flags io s :
shutdown (start_step io s) = shutdown s ∧
queueClosed (start_step io s) = queueClosed s ∧
logged (start_step io s) = logged s.
Proof.
unfold Engine.start_step. destruct (work s); simpl; try done.
- by destruct (shutdown s) eqn:E.
- destruct (requestQueue s); [|done]. by destruct (queueClosed s) eqn:E.
- by destruct (heap s !! request).
Qed.

(** A step leaves every other caller where it stands. *)
Lemma step_callers_other e s g c :
callers s !! g = Some c → e ≠ Run g →
callers (step e s) !! g = Some c.
Proof.
intros Hg He. destruct e as [ip| |g'|io]; simpl.
- by apply lookup_app_l_Some.
- by apply lookup_app_l_Some.
- destruct (callers s !! g') as [c'|] eqn:Hg'; [|done].
  destruct (caller_step_callers g' c' s) as [->|[c'' ->]]; [done|].
  rewrite list_lookup_insert_ne; [done | congruence].
- by rewrite start_step_callers.
Qed.

(** The lifecycle is one-way: neither the flag nor the closing of the
    channel is ever undone. *)
Lemma step_shutdown e s : shutdown s = true → shutdown (step e s) = true.
Proof.
intros Hs. destruct e as [ip| |g|io]; simpl; try done.
- destruct (callers s !! g); [|done]. by apply caller_step_shutdown.
- by destruct (start_step_flags io s) as (-> & _).
Qed.

Lemma step_queueClosed e s :
queueClosed s = true → queueClosed (step e s) = true.
Proof.
intros Hs. destruct e as [ip| |g|io]; simpl; try done.
- destruct (callers s !! g); [|done]. by apply caller_step_queueClosed.
- by destruct (start_step_flags io s) as (_ & -> & _).
Qed.

Lemma exec_shutdown tr s : shutdown s = true → shutdown (exec tr s) = true.
Proof.
revert s. induction tr as [|e tr IH]; intros s Hs; [done|].
rewrite exec_cons. by apply IH, step_shutdown.
Qed.

Lemma exec_queueClosed tr s :
queueClosed s = true → queueClosed (exec tr s) = true.
Proof.
revert s. induction tr as [|e tr IH]; intros s Hs; [done|].
rewrite exec_cons. by apply IH, step_queueClosed.
Qed.

Lemma abandoned_step g p r e s :
abandoned g p r s → abandoned g p r (step e s).
Proof.
intros (Hw & Hg & Hp & Hr).
destruct e as [ip| |g'|io].
- split; [done|]. split; [by apply lookup_app_l_Some | done].
- split; [done|]. split; [by apply lookup_app_l_Some | done].
- destruct (decide (g' = g)) as [->|Hne].
  + simpl. rewrite Hg. simpl. rewrite Hp, decide_False by done. done.
  + split; [|split; [|split; [|done]]].
    * simpl. destruct (callers s !! g'); [|done]. by rewrite caller_step_work.
    * apply step_callers_other; [done | congruence].
    * simpl. destruct (callers s !! g') as [c'|]; [|done].
      destruct (caller_step_heap g' c' s) as [->|[r' ->]]; [done|].
      by apply lookup_app_l_Some.
- simpl. unfold Engine.start_step. by rewrite Hw.
Qed.

Lemma abandoned_exec g p r tr s :
abandoned g p r s → abandoned g p r (exec tr s).
Proof.
revert s. induction tr as [|e tr IH]; intros s Hs; [done|].
rewrite exec_cons. by apply IH, abandoned_step.
Qed.

(** The worker at the head of its loop with the flag set returns at once,
    whatever the queue holds. *)
Lemma start_guard_exit io s :
work s = start_guard → shutdown s = true →
step (Work io) s = start_exit s.
Proof. intros Hw Hs. simpl. unfold Engine.start_step. by rewrite Hw, Hs. Qed.

Lemma start_returned_conn tr :
let s := exec tr New in work s = start_return → connOpen s = false.
Proof. intros s Hw. by apply (inv_conn s (inv_exec tr New inv_New)). Qed.

(** C1: what [start] does in the run [abandon_run]: request 1 was accepted
    into the queue before [Shutdown] closed it, and the worker, back at the
    head of its loop, sees the flag and returns. The connection is closed,
    but request 1 is still in the queue, its [WaitGroup] is never
    released, and in every continuation of the run its caller stays
    blocked in [wg.Wait()]. *)
Theorem start_leaves_queued_request (ip : net.IP) (io : exchange) :
let s := exec (abandon_run ip io) New in
let r := {| ip := ip; wg := 1; response := P0fResponse_zero; err := None |} in
work s = start_return ∧
connOpen s = false ∧
requestQueue s = [1%nat] ∧
callers s !! 1%nat = Some (Query_wait 1) ∧
heap s !! 1%nat = Some r ∧
∀ tr, let s' := exec tr s in
      work s' = start_return ∧
      callers s' !! 1%nat = Some (Query_wait 1) ∧
      heap s' !! 1%nat = Some r.
Proof.
intros s r.
assert (Hs : abandoned 1 1 r s) by (by repeat split).
split; [apply Hs|].
split; [reflexivity|].
split; [reflexivity|].
split; [apply Hs|].
split; [apply Hs|].
intros tr s'.
destruct (abandoned_exec 1 1 r tr s Hs) as (Hw & Hg & Hp & _).
by repeat split.
Qed.

Lemma closing_pos (l : list caller) (g : nat) :
l !! g = Some Shutdown_close → (1 ≤ length (List.filter is_closing l))%nat.
Proof.
revert g. induction l as [|x l IH]; intros [|g] Hg; simplify_eq/=; [lia|].
specialize (IH g Hg). destruct (is_closing x); simpl; lia.
Qed.

(** C7: in every state the engine reaches, the queue holds at most 1024
    requests. A caller at the [select] of [Query] while the channel is
    open and holds 1024 requests returns the error [requestQueue at
    capacity] in that one step, without waiting and without a change to
    the queue; and so does a whole call of [Query] made, with the engine
    running, while the queue holds 1024 requests. *)
Theorem Query_at_capacity tr :
let s := exec tr New in
(length (requestQueue s) ≤ 1024)%nat ∧
(∀ g ip,
   callers s !! g = Some (Query_select ip) →
   queueClosed s = false →
   length (requestQueue s) = 1024%nat →
   let s' := step (Run g) s in
   callers s' !! g
   = Some (Query_return P0fResponse_zero (Some "requestQueue at capacity")) ∧
   requestQueue s' = requestQueue s) ∧
(∀ ip,
   shutdown s = false →
   length (requestQueue s) = 1024%nat →
   let g := length (callers s) in
   let s' := exec [Call_Query ip; Run g; Run g] s in
   callers s' !! g
   = Some (Query_return P0fResponse_zero (Some "requestQueue at capacity")) ∧
   requestQueue s' = requestQueue s).
Proof.
intros s. pose proof (inv_exec tr New inv_New) as Hinv.
fold s in Hinv. destruct Hinv as [Hcap Hwin _ _].
split; [exact Hcap|]. split.
- intros g ip Hg Hc Hfull. simpl. rewrite Hg. simpl. rewrite Hc.
  rewrite decide_False by (unfold requestChanSize; lia). simpl.
  split; [|done]. apply list_lookup_insert_eq. by eapply lookup_lt_Some.
- intros ip Hs Hfull.
  assert (Hc : queueClosed s = false).
  { rewrite Hs in Hwin. destruct (queueClosed s); [simpl in Hwin; lia | done]. }
  simpl. rewrite lookup_app_r, Nat.sub_diag by done. simpl. rewrite Hs. simpl.
  rewrite list_lookup_insert_eq by (rewrite length_app; simpl; lia).
  simpl. rewrite Hc. rewrite decide_False by (unfold requestChanSize; lia).
  simpl. split; [|done].
  rewrite list_lookup_insert_eq; [done|].
  rewrite length_insert, length_app. simpl. lia.
Qed.

Lemma refused_step g ip e s :
shutdown s = true → refused g ip s → refused g ip (step e s).
Proof.
intros Hs Hg.
destruct e as [ip'| |g'|io].
1, 2, 4: by destruct Hg as [Hg|Hg]; [left|right]; apply step_callers_other.
destruct (decide (g' = g)) as [->|Hne].
- right. destruct Hg as [Hg|Hg]; simpl; rewrite Hg; simpl; [|done].
  rewrite Hs. simpl. apply list_lookup_insert_eq. by eapply lookup_lt_Some.
- destruct Hg as [Hg|Hg]; [left|right];
    (apply step_callers_other; [done | congruence]).
Qed.

Lemma refused_exec g ip tr s :
shutdown s = true → refused g ip s → refused g ip (exec tr s).
Proof.
revert s. induction tr as [|e tr IH]; intros s Hs Hg; [done|].
rewrite exec_cons. apply IH; [by apply step_shutdown | by apply refused_step].
Qed.

(** C8: once the shutdown flag is set, a caller at the first step of
    [Query] returns the error [P0f::Shutdown previously called] in that
    step, which changes nothing but the caller itself: the queue and the
    requests are as before. A call of [Query] that starts after the flag
    is set can, however the goroutines interleave, only be at its first
    step or have returned that error. *)
Theorem Query_after_Shutdown tr :
let s := exec tr New in
shutdown s = true →
(∀ g ip,
   callers s !! g = Some (Query_load ip) →
   let s' := step (Run g) s in
   s' = set_caller g (Query_return P0fResponse_zero
                        (Some "P0f::Shutdown previously called")) s ∧
   requestQueue s' = requestQueue s ∧
   heap s' = heap s) ∧
(∀ ip tr', refused (length (callers s)) ip (exec (Call_Query ip :: tr') s)).
Proof.
intros s Hs. split.
- intros g ip Hg. simpl. rewrite Hg. simpl. by rewrite Hs.
- intros ip tr'. rewrite exec_cons. apply refused_exec; [done|].
  left. simpl. by rewrite lookup_app_r, Nat.sub_diag by done.
Qed.

(** C9: [Shutdown] in every state the engine reaches, however the calls
    interleave. The deferred [recover] has never logged a failed close.
    Exactly one goroutine wins the compare-and-swap: once the flag is set,
    either one goroutine is about to close the channel or the channel is
    closed. The flag and the closing are never undone. A call that finds
    the flag set returns and changes nothing else; the call that finds it
    unset sets it and goes on to the close; and the close finds the
    channel open, closes it, logs nothing and leaves the queue's contents
    alone. *)
Theorem Shutdown_idempotent tr :
let s := exec tr New in
logged s = [] ∧
(closing s + Nat.b2n (queueClosed s) = Nat.b2n (shutdown s))%nat ∧
(shutdown s = true → ∀ tr', shutdown (exec tr' s) = true) ∧
(queueClosed s = true → ∀ tr', queueClosed (exec tr' s) = true) ∧
(∀ g, callers s !! g = Some Shutdown_cas →
   let s' := step (Run g) s in
   if shutdown s then s' = set_caller g Shutdown_return s
   else shutdown s' = true ∧ callers s' !! g = Some Shutdown_close ∧
        queueClosed s' = false ∧ requestQueue s' = requestQueue s) ∧
(∀ g, callers s !! g = Some Shutdown_close →
   let s' := step (Run g) s in
   queueClosed s = false ∧ queueClosed s' = true ∧
   callers s' !! g = Some Shutdown_return ∧ logged s' = [] ∧
   requestQueue s' = requestQueue s).
Proof.
intros s. pose proof (inv_exec tr New inv_New) as Hinv.
fold s in Hinv. destruct Hinv as [_ Hwin Hlog _].
split; [done|]. split; [done|].
split; [intros Hs tr'; by apply exec_shutdown|].
split; [intros Hs tr'; by apply exec_queueClosed|].
split.
- intros g Hg. simpl. rewrite Hg. simpl.
  destruct (shutdown s) eqn:Hs; [done|]. simpl.
  rewrite list_lookup_insert_eq by (by eapply lookup_lt_Some).
  repeat split; try done.
  destruct (queueClosed s); [simpl in Hwin; lia | done].
- intros g Hg. unfold closing in Hwin.
  pose proof (closing_pos _ _ Hg) as Hpos.
  assert (Hc : queueClosed s = false).
  { destruct (queueClosed s), (shutdown s); simpl in Hwin; done || lia. }
  simpl. rewrite Hg. simpl. rewrite Hc. simpl.
  rewrite list_lookup_insert_eq by (by eapply lookup_lt_Some). done.
Qed.
(** [start] has returned exactly when the connection is closed: the
    deferred [p.conn.Close()] runs on both ways out of the loop, and
    nothing else closes the connection. *)
Theorem conn_closed_iff_returned tr :
let s := exec tr New in
work s = start_return ↔ connOpen s = false.
Proof. intros s. apply (inv_conn s (inv_exec tr New inv_New)). Qed.

(** A caller that passed the flag check of [Query] before [Shutdown] and
    reaches its [select] after the channel is closed panics: a send on a
    closed channel, which nothing in [Query] recovers. *)
Theorem Query_select_after_close s g ip :
callers s !! g = Some (Query_select ip) →
queueClosed s = true →
let s' := step (Run g) s in
callers s' !! g = Some (Query_panic "send on closed channel") ∧
requestQueue s' = requestQueue s.
Proof.
intros Hg Hc. simpl. rewrite Hg. simpl. rewrite Hc. simpl.
split; [|done]. apply list_lookup_insert_eq. by eapply lookup_lt_Some.
Qed.

(** Whatever the connection does during an exchange (a failed write, a
    failed read, any frame), the worker releases the request's
    [WaitGroup], leaves the queue alone and goes back to the head of its
    loop. *)
Theorem start_exchange_continues s io p r :
work s = start_exchange p →
heap s !! p = Some r →
let s' := step (Work io) s in
work s' = start_guard ∧
wg <$> heap s' !! p = Some (wg r - 1)%nat ∧
requestQueue s' = requestQueue s ∧
connOpen s' = connOpen s.
Proof.
intros Hw Hp. simpl. unfold Engine.start_step. rewrite Hw, Hp. simpl.
split; [done|]. split; [|done].
rewrite list_lookup_insert_eq by (by eapply lookup_lt_Some). done.
Qed.
End facts.

Lemma Query_at_capacity_witness :
let s := exec LittleEndian sample_String (queries_run 1024) New in
let s' := exec LittleEndian sample_String
            [Call_Query sample_ip; Run 1024; Run 1024] s in
shutdown s = false ∧
length (requestQueue s) = 1024%nat ∧
callers s' !! 1024%nat
= Some (Query_return P0fResponse_zero (Some "requestQueue at capacity")) ∧
requestQueue s' = requestQueue s.
Proof.
intros s s'.
assert (Hs : shutdown s = false) by (vm_compute; reflexivity).
assert (Hfull : length (requestQueue s) = 1024%nat) by (vm_compute; reflexivity).
assert (Hg : length (callers s) = 1024%nat) by (vm_compute; reflexivity).
split; [exact Hs|]. split; [exact Hfull|].
destruct (Query_at_capacity LittleEndian sample_String (queries_run 1024))
  as (_ & _ & Hcall).
specialize (Hcall sample_ip Hs Hfull). fold s in Hcall.
rewrite Hg in Hcall. exact Hcall.
Defined.

Lemma Query_after_Shutdown_witness :
let s := exec LittleEndian sample_String shutdown_run New in
shutdown s = true ∧
refused 1 sample_ip
  (exec LittleEndian sample_String [Call_Query sample_ip; Run 1] s) ∧
requestQueue (exec LittleEndian sample_String [Call_Query sample_ip; Run 1] s)
= requestQueue s.
Proof.
intros s. split; [reflexivity|].
destruct (Query_after_Shutdown LittleEndian sample_String shutdown_run
            eq_refl) as (Hstep & Hcall).
split; [exact (Hcall sample_ip [Run 1])|].
reflexivity.
Defined.

Lemma Shutdown_idempotent_witness :
let s := exec LittleEndian sample_String
           (shutdown_run ++ [Call_Shutdown; Run 1; Run 1]) New in
logged s = [] ∧ shutdown s = true ∧ queueClosed s = true ∧
callers s = [Shutdown_return; Shutdown_return].
Proof.
intros s.
destruct (Shutdown_idempotent LittleEndian sample_String
            (shutdown_run ++ [Call_Shutdown; Run 1; Run 1]))
  as (Hlog & _).
split; [exact Hlog|]. by repeat split.
Defined.

Lemma Query_select_after_close_witness :
let s := exec LittleEndian sample_String
           ([Call_Query sample_ip; Run 0] ++ [Call_Shutdown; Run 1; Run 1])
           New in
callers s !! 0%nat = Some (Query_select sample_ip) ∧
queueClosed s = true ∧
callers (step LittleEndian sample_String (Run 0) s) !! 0%nat
= Some (Query_panic "send on closed channel").
Proof.
intros s. split; [reflexivity|]. split; [reflexivity|].
exact (proj1 (Query_select_after_close LittleEndian sample_String s 0
                sample_ip eq_refl eq_refl)).
Defined.

Lemma start_exchange_continues_witness :
let s := exec LittleEndian sample_String
           (queries_run 1 ++ [Work sample_io; Work sample_io]) New in
let io := {| write_err := Some "broken pipe"; read := ReadErr "EOF" |} in
let s' := step LittleEndian sample_String (Work io) s in
work s = start_exchange 0 ∧
work s' = start_guard ∧
heap s' !! 0%nat
= Some {| ip := sample_ip; wg := 0; response := P0fResponse_zero;
          err := Some "broken pipe" |}.
Proof.
intros s io s'. split; [reflexivity|].
destruct (start_exchange_continues LittleEndian sample_String s io 0
            {| ip := sample_ip; wg := 1; response := P0fResponse_zero;
               err := None |} eq_refl eq_refl) as (Hw & _).
split; [exact Hw|]. reflexivity.
Defined.

End EngineFacts.

(** ** The requests of the engine *)

Module RequestsFacts.
Import Engine EngineFacts Requests.

Lemma pending_lt h p : pending h p → (p < length h)%nat.
Proof. intros (r & Hr & _). by eapply lookup_lt_Some. Qed.

Lemma pending_app h x p : pending h p → pending (h ++ [x]) p.
Proof. intros (r & Hr & Hw). exists r. split; [by apply lookup_app_l_Some|done]. Qed.

Lemma pending_insert h q r' p :
p ≠ q → pending h p → pending (<[q := r']> h) p.
Proof.
intros Hne (r & Hr & Hw). exists r. split; [|done].
by rewrite list_lookup_insert_ne.
Qed.

Lemma caller_ok_mono h h' c :
(length h ≤ length h')%nat → caller_ok h c → caller_ok h' c.
Proof. intros Hl. destruct c; simpl; try done. lia. Qed.

Lemma done_count_app h x :
done_count (h ++ [x]) = (done_count h + Nat.b2n (is_done x))%nat.
Proof.
unfold done_count. rewrite List.filter_app, length_app. simpl.
by destruct (is_done x).
Qed.

Lemma done_count_insert h p r r' :
h !! p = Some r →
(done_count (<[p := r']> h) + Nat.b2n (is_done r)
 = done_count h + Nat.b2n (is_done r'))%nat.
Proof.
unfold done_count. revert p.
induction h as [|x h IH]; intros [|p] Hp; simplify_eq/=.
- destruct (is_done r), (is_done r'); simpl; lia.
- specialize (IH p Hp). destruct (is_done x); simpl; lia.
Qed.

Lemma requestFrame_length native (ip : net.IP) :
length (requestFrame native ip) = requestSize.
Proof.
unfold requestFrame.
destruct (net.To4 ip) as [ip4|] eqn:E4.
- apply To4_Some in E4 as [Hl _].
  destruct ip4 as [|a [|b [|c [|d [|]]]]]; try done. by destruct native.
- destruct (net.To16 ip) as [ip16|] eqn:E16; [|by destruct native].
  apply To16_Some in E16.
  do 17 (destruct ip16 as [|? ip16]; try done). by destruct native.
Qed.

Lemma readResponse_error_zero native rd ip :
(readResponse native rd ip).2 ≠ None →
(readResponse native rd ip).1 = P0fResponse_zero.
Proof.
destruct rd as [e|data]; [done|].
rewrite readResponse_fill, readResponse_frame by apply fill_buffer_length.
by repeat case_decide.
Qed.

Lemma wf_New : wf New.
Proof. split; simpl; try done; constructor. Qed.

Lemma wf_spawn c s :
caller_ok (heap s) c → wf s → wf (spawn c s).
Proof.
intros Hc [Hh Hcs Hs Hq Hw Hn Hf]. split; simpl; try done.
apply Forall_app. split; [done|]. by constructor.
Qed.

Lemma wf_set_caller g c s :
caller_ok (heap s) c → wf s → wf (set_caller g c s).
Proof.
intros Hc [Hh Hcs Hs Hq Hw Hn Hf]. split; simpl; try done.
by apply Forall_insert.
Qed.

Lemma wf_Query_step g c s : wf s → wf (Query_step g c s).
Proof.
intros Hwf. destruct c as [ip|ip|p|resp e|m| | |]; simpl; try done.
- destruct (shutdown s); by apply wf_set_caller.
- destruct Hwf as [Hh Hcs Hs Hq Hw Hn Hf].
  set (r := {| ip := ip; wg := 1; response := P0fResponse_zero; err := None |}).
  assert (Hh' : Forall request_ok (heap s ++ [r])).
  { apply Forall_app. split; [done|]. constructor; [|done]. by right. }
  assert (Hcs' : ∀ c', caller_ok (heap s ++ [r]) c' →
            Forall (caller_ok (heap s ++ [r])) (<[g := c']> (callers s))).
  { intros c' Hc'. apply Forall_insert; [|done].
    eapply Forall_impl; [done|]. intros c0. apply caller_ok_mono.
    rewrite length_app. lia. }
  assert (Hq' : Forall (pending (heap s ++ [r])) (requestQueue s)).
  { eapply Forall_impl; [done|]. intros p. apply pending_app. }
  assert (Hw' : ∀ p, work s = start_exchange p →
            pending (heap s ++ [r]) p ∧ Forall (lt p) (requestQueue s)).
  { intros p Hp. destruct (Hw p Hp). split; [by apply pending_app|done]. }
  assert (Hn' : length (written s) = done_count (heap s ++ [r])).
  { rewrite done_count_app. simpl. lia. }
  destruct (queueClosed s); [|case_decide].
  + split; simpl; try done. by apply Hcs'.
  + split; simpl; try done.
    * apply Hcs'. simpl. rewrite length_app. simpl. lia.
    * apply StronglySorted_app_2; [|done|repeat constructor].
      intros x1 x2 Hx1 ->%list_elem_of_singleton.
      rewrite Forall_forall in Hq. by apply pending_lt, Hq.
    * apply Forall_app. split; [done|]. constructor; [|done].
      exists r. split; [|done]. by rewrite lookup_app_r, Nat.sub_diag.
    * intros p Hp. destruct (Hw' p Hp) as [Hpp Hlt]. split; [done|].
      apply Forall_app. split; [done|]. constructor; [|done].
      destruct (Hw p Hp) as [Hpp0 _]. by apply pending_lt.
  + split; simpl; try done. by apply Hcs'.
- destruct (heap s !! p) as [r|] eqn:Hp; [|done].
  case_decide as Hr; [|done]. apply wf_set_caller; [|done]. simpl.
  destruct (err r) as [e|] eqn:He; [|done].
  destruct (Forall_lookup_1 _ _ _ _ (wf_heap s Hwf) Hp) as [[_ Hz]|[Hone _]].
  + apply Hz. by rewrite He.
  + lia.
Qed.

Lemma wf_Shutdown_step g c s : wf s → wf (Shutdown_step g c s).
Proof.
intros Hwf. destruct c; simpl; try done.
- destruct (shutdown s); [by apply wf_set_caller|].
  destruct Hwf as [Hh Hcs Hs Hq Hw Hn Hf]. split; simpl; try done.
  by apply Forall_insert.
- destruct Hwf as [Hh Hcs Hs Hq Hw Hn Hf].
  destruct (queueClosed s); split; simpl; try done; by apply Forall_insert.
Qed.

Lemma wf_caller_step g c s : wf s → wf (caller_step g c s).
Proof.
intros Hwf. destruct c as [a|a|p|resp e|m| | |]; simpl; try done.
- by apply (wf_Query_step g (Query_load a)).
- by apply (wf_Query_step g (Query_select a)).
- by apply (wf_Query_step g (Query_wait p)).
- by apply (wf_Shutdown_step g Shutdown_cas).
- by apply (wf_Shutdown_step g Shutdown_close).
Qed.

Section runs.
Variable native : ByteOrder.
Variable IP_String : net.IP → string.
Abbreviation step := (step native IP_String).
Abbreviation exec := (exec native IP_String).
Abbreviation start_step := (start_step native IP_String).
Abbreviation exchange_request := (exchange_request native IP_String).

Lemma exchange_request_ok io r :
wg r = 1%nat → response r = P0fResponse_zero →
request_ok (exchange_request io r).2 ∧
is_done (exchange_request io r).2 = true ∧
length (exchange_request io r).1 = requestSize.
Proof.
intros Hw Hz. unfold Engine.exchange_request, writeRequest. cbn [fst snd].
split; [|split].
- left. simpl. split; [lia|].
  destruct (write_err io) as [e|]; simpl; [done|].
  apply readResponse_error_zero.
- unfold is_done. simpl. by rewrite Hw.
- apply requestFrame_length.
Qed.

Lemma wf_start_step io s : wf s → wf (start_step io s).
Proof.
intros Hwf. unfold Engine.start_step.
destruct (work s) as [| |p|] eqn:Hwork; [| | |done].
- destruct Hwf as [Hh Hcs Hs Hq Hw Hn Hf].
  destruct (shutdown s); split; simpl; done.
- destruct Hwf as [Hh Hcs Hs Hq Hw Hn Hf].
  destruct (requestQueue s) as [|p rest] eqn:Eq.
  + destruct (queueClosed s); split; simpl; rewrite ?Eq; try done.
    all: intros p Hp; rewrite Hwork in Hp; done.
  + apply StronglySorted_cons in Hs as [Hlt Hs].
    apply Forall_cons in Hq as [Hp Hq].
    split; simpl; try done. by intros ? [= <-].
- destruct (wf_work s Hwf p Hwork) as [(r & Hr & Hone) Hlt].
  rewrite Hr.
  destruct Hwf as [Hh Hcs Hs Hq Hw Hn Hf].
  assert (Hz : response r = P0fResponse_zero).
  { destruct (Forall_lookup_1 _ _ _ _ Hh Hr) as [[H0 _]|(_ & Hz & _)]; [lia|done]. }
  destruct (exchange_request_ok io r Hone Hz) as (Hok & Hdone & Hlen).
  remember (exchange_request io r) as x eqn:Ex. clear Ex.
  split; simpl; try done.
  + by apply Forall_insert.
  + eapply Forall_impl; [done|]. intros c. apply caller_ok_mono.
    by rewrite length_insert.
  + rewrite Forall_forall in Hlt. rewrite Forall_forall in Hq.
    apply Forall_forall. intros q Hq'. apply pending_insert; [|by apply Hq].
    specialize (Hlt q Hq'). lia.
  + rewrite length_app. simpl.
    pose proof (done_count_insert _ _ _ x.2 Hr) as Hc.
    rewrite Hdone in Hc. unfold is_done in Hc at 1. rewrite Hone in Hc.
    simpl in Hc. lia.
  + apply Forall_app. split; [done|]. by constructor.
Qed.

Lemma wf_step e s : wf s → wf (step e s).
Proof.
intros Hwf. destruct e as [ip| |g|io]; simpl.
- by apply wf_spawn.
- by apply wf_spawn.
- destruct (callers s !! g); [by apply wf_caller_step|done].
- by apply wf_start_step.
Qed.

Lemma wf_exec tr s : wf s → wf (exec tr s).
Proof.
revert s. induction tr as [|e tr IH]; intros s Hs; [done|].
rewrite exec_cons. by apply IH, wf_step.
Qed.

Lemma done_step e s p r :
wf s → heap s !! p = Some r → wg r = 0%nat →
heap (step e s) !! p = Some r.
Proof.
intros Hwf Hp Hr. destruct e as [a| |g|io]; simpl; try done.
- destruct (callers s !! g) as [c|]; [|done].
  destruct (caller_step_heap g c s) as [->|[r' ->]]; [done|].
  by apply lookup_app_l_Some.
- unfold Engine.start_step.
  destruct (work s) as [| |q|] eqn:Hwork; try done.
  + by destruct (shutdown s).
  + destruct (requestQueue s); [|done]. by destruct (queueClosed s).
  + destruct (wf_work s Hwf q Hwork) as [(r' & Hr' & Hone) _].
    rewrite Hr'. cbn [heap].
    rewrite list_lookup_insert_ne; [done|].
    intros ->. rewrite Hp in Hr'. injection Hr' as <-. lia.
Qed.

(** The queue holds the requests in the order [Query] made them (their
    index on the heap), none of them twice, and the request the worker is
    serving is older than every queued one: requests are served in the
    order they were accepted. *)
Theorem queue_in_acceptance_order tr :
let s := exec tr New in
StronglySorted lt (requestQueue s) ∧
NoDup (requestQueue s) ∧
Forall (λ p, p < length (heap s))%nat (requestQueue s) ∧
∀ p, work s = start_exchange p → Forall (lt p) (requestQueue s).
Proof.
intros s. destruct (wf_exec tr New wf_New) as [_ _ Hs Hq Hw _ _].
fold s in Hs, Hq, Hw.
split; [done|]. split; [|split].
- clear Hq Hw. induction Hs as [|x l Hl IH Hx]; constructor; [|done].
  intros Hin. rewrite Forall_forall in Hx. specialize (Hx x Hin). lia.
- eapply Forall_impl; [done|]. intros p. apply pending_lt.
- intros p Hp. by destruct (Hw p Hp).
Qed.

(** [Query] never hands back an error together with a populated result:
    whatever error a call returns (shutdown, capacity, a failed write or
    read, a refused response), the result beside it is the zero value. *)
Theorem Query_error_zero_result tr g resp e :
let s := exec tr New in
callers s !! g = Some (Query_return resp (Some e)) →
resp = P0fResponse_zero.
Proof.
intros s Hg. pose proof (wf_callers s (wf_exec tr New wf_New)) as Hcs.
exact (Forall_lookup_1 _ _ _ _ Hcs Hg).
Qed.

(** A request that is done is never written again: its result and its
    error stay what the worker stored, in every continuation. *)
Theorem done_request_stable tr p r :
let s := exec tr New in
heap s !! p = Some r → wg r = 0%nat →
∀ tr', heap (exec tr' s) !! p = Some r.
Proof.
intros s Hp Hr tr'. pose proof (wf_exec tr New wf_New) as Hwf. fold s in Hwf.
revert Hwf Hp. generalize s. clear s.
induction tr' as [|e tr' IH]; intros s Hwf Hp; [done|].
rewrite exec_cons. apply IH; [by apply wf_step | by apply done_step].
Qed.


(** The caller of the request being served gets what the exchange gave:
    the error of a failed write, or else what [readResponse] made of the
    read, for the text of the address it asked about. *)
Theorem Query_returns_exchange tr io g p r :
let s := exec tr New in
work s = start_exchange p →
callers s !! g = Some (Query_wait p) →
heap s !! p = Some r →
let got :=
  match write_err io with
  | Some e => (P0fResponse_zero, Some e)
  | None => readResponse native (read io) (IP_String (ip r))
  end in
callers (exec [Work io; Run g] s) !! g = Some (Query_return got.1 got.2).
Proof.
intros s Hw Hg Hp got.
pose proof (wf_exec tr New wf_New) as Hwf. fold s in Hwf.
destruct (wf_work s Hwf p Hw) as [(r' & Hr' & Hone) _].
rewrite Hp in Hr'. injection Hr' as <-.
assert (Hz : response r = P0fResponse_zero).
{ destruct (Forall_lookup_1 _ _ _ _ (wf_heap s Hwf) Hp)
    as [[H0 _]|(_ & Hz & _)]; [lia|done]. }
assert (Hs1 : heap (step (Work io) s) !! p
              = Some (exchange_request io r).2 ∧
              callers (step (Work io) s) = callers s).
{ simpl. unfold Engine.start_step. rewrite Hw, Hp. cbn [heap callers].
  split; [|done]. apply list_lookup_insert_eq. by eapply lookup_lt_Some. }
destruct Hs1 as [Hheap Hcall].
change (exec [Work io; Run g] s) with (step (Run g) (step (Work io) s)).
remember (step (Work io) s) as s1 eqn:E1. clear E1.
simpl. rewrite Hcall, Hg. cbn [caller_step Query_step]. rewrite Hheap.
assert (Hdone : wg (exchange_request io r).2 = 0%nat).
{ unfold Engine.exchange_request. cbn [snd wg]. lia. }
rewrite decide_True by done. cbn [set_caller callers].
rewrite list_lookup_insert_eq by (rewrite Hcall; by eapply lookup_lt_Some).
subst got. unfold Engine.exchange_request, writeRequest.
cbn [fst snd response err]. rewrite Hz. by destruct (write_err io).
Qed.
End runs.

Lemma Query_error_zero_result_witness :
let refusal :=
  {| write_err := None;
     read := ReadOk (sample_frame magicBytesRcv resultNoMatch) |} in
let s := Engine.exec LittleEndian sample_String
           (queries_run 1 ++ [Work refusal; Work refusal; Work refusal; Run 0])
           New in
∃ resp, callers s !! 0%nat = Some (Query_return resp (Some "no match")) ∧
        resp = P0fResponse_zero.
Proof.
intros refusal s. eexists. split; [reflexivity|].
exact (Query_error_zero_result LittleEndian sample_String
         (queries_run 1 ++ [Work refusal; Work refusal; Work refusal; Run 0])
         0 _ "no match" eq_refl).
Defined.

Lemma done_request_stable_witness :
let s := Engine.exec LittleEndian sample_String
           (queries_run 1 ++ [Work sample_io; Work sample_io; Work sample_io])
           New in
let s' := Engine.exec LittleEndian sample_String
            [Run 0; Call_Query sample_ip; Run 1; Run 1;
             Work sample_io; Work sample_io; Work sample_io; Call_Shutdown] s in
wg <$> heap s !! 0%nat = Some 0%nat ∧
heap s' !! 0%nat = heap s !! 0%nat.
Proof.
intros s s'. split; [reflexivity|].
destruct (heap s !! 0%nat) as [r|] eqn:Hr; [|discriminate].
assert (Hw : wg r = 0%nat).
{ assert (H : wg <$> heap s !! 0%nat = Some 0%nat) by reflexivity.
  rewrite Hr in H. by injection H. }
exact (done_request_stable LittleEndian sample_String _ 0 r Hr Hw _).
Defined.

Lemma Query_returns_exchange_witness :
let s := Engine.exec LittleEndian sample_String
           (queries_run 1 ++ [Work sample_io; Work sample_io]) New in
let s' := Engine.exec LittleEndian sample_String
            [Work sample_io; Run 0] s in
work s = start_exchange 0 ∧
callers s !! 0%nat = Some (Query_wait 0) ∧
∃ resp, callers s' !! 0%nat = Some (Query_return resp None) ∧
        Ip resp = "1.2.3.4" ∧ OsName resp = Some "Linux" ∧
        LinkMtu resp = 1500 ∧ HttpName resp = None.
Proof.
intros s s'. split; [reflexivity|]. split; [reflexivity|].
pose proof (Query_returns_exchange LittleEndian sample_String
              (queries_run 1 ++ [Work sample_io; Work sample_io]) sample_io 0 0
              {| ip := sample_ip; wg := 1; response := P0fResponse_zero;
                 err := None |} eq_refl eq_refl eq_refl) as H.
cbv zeta in H. eexists. split; [exact H|].
repeat apply conj; vm_compute; reflexivity.
Defined.
End RequestsFacts.

(** ** Waiting callers and the loop of the worker *)

Module WaitingFacts.
Import Engine EngineFacts Requests RequestsFacts Waiting.

Section runs.
Variable native : ByteOrder.
Variable IP_String : net.IP → string.
Abbreviation step := (step native IP_String).
Abbreviation exec := (exec native IP_String).
Abbreviation start_step := (start_step native IP_String).

Lemma tracked_spawn c s p : tracked s p → tracked (spawn c s) p.
Proof. done. Qed.

Lemma tracked_caller_step g c s p :
tracked s p → tracked (caller_step g c s) p.
Proof.
intros Ht. unfold tracked in *.
destruct c as [a|a|q|resp e|m| | |]; simpl; try done.
- by destruct (shutdown s).
- destruct (queueClosed s); [|case_decide]; simpl.
  all: destruct Ht as [(r & Hr & H0)|[Hq|Hw]]; [left|right; left|right; right];
    try done.
  all: try (exists r; split; [by apply lookup_app_l_Some|done]).
  apply elem_of_app. by left.
- destruct (heap s !! q); [|done]. by case_decide.
- by destruct (shutdown s).
- by destruct (queueClosed s).
Qed.

Lemma tracked_start_step io s p :
wf s → tracked s p → tracked (start_step io s) p.
Proof.
intros Hwf Ht. unfold Engine.start_step, tracked in *.
destruct (work s) as [| |q|] eqn:Hwork; try done.
- destruct Ht as [H|[H|H]]; [|
|done].
  + left. by destruct (shutdown s).
  + right. left. by destruct (shutdown s).
- destruct (requestQueue s) as [|q rest] eqn:Eq.
  + destruct Ht as [H|[H|H]]; [|by apply elem_of_nil in H|done].
    left. by destruct (queueClosed s).
  + cbn [heap requestQueue work].
    destruct Ht as [H|[H|H]]; [by left| |done].
    apply elem_of_cons in H as [->|H]; [by right; right | by right; left].
- destruct (wf_work s Hwf q Hwork) as [(r' & Hr' & Hone) _].
  rewrite Hr'. cbn [heap requestQueue work].
  destruct Ht as [(r & Hr & H0)|[H|H]]; [|by right; left|].
  + left. exists r. split; [|done]. rewrite list_lookup_insert_ne; [done|].
    intros ->. rewrite Hr in Hr'. injection Hr' as <-. lia.
  + injection H as ->. left. eexists. split.
    * apply list_lookup_insert_eq. by eapply lookup_lt_Some.
    * unfold Engine.exchange_request. cbn [snd wg]. lia.
- destruct Ht as [H|[H|H]]; [by left | by right; left | done].
Qed.

Lemma waits_tracked_step e s :
wf s → waits_tracked s → waits_tracked (step e s).
Proof.
intros Hwf Hwt g p Hg. destruct e as [a| |g'|io].
- apply tracked_spawn. simpl in Hg.
  apply lookup_app_Some in Hg as [Hg|[_ Hg]]; [by eapply Hwt|].
  by destruct (g - length (callers s))%nat as [|[|]].
- apply tracked_spawn. simpl in Hg.
  apply lookup_app_Some in Hg as [Hg|[_ Hg]]; [by eapply Hwt|].
  by destruct (g - length (callers s))%nat as [|[|]].
- simpl in *. destruct (callers s !! g') as [c|] eqn:Hc; [|by eapply Hwt].
  destruct (decide (g = g')) as [->|Hne].
  + (* the caller itself moved *)
    destruct c as [a|a|q|resp e|m| | |]; simpl in *;
      try (rewrite Hc in Hg; simplify_eq; by eapply Hwt).
    * destruct (shutdown s); simpl in Hg;
        rewrite list_lookup_insert_eq in Hg by (by eapply lookup_lt_Some);
        done.
    * destruct (queueClosed s); [|case_decide]; simpl in *;
        rewrite list_lookup_insert_eq in Hg by (by eapply lookup_lt_Some);
        try done.
      injection Hg as <-. right. left. simpl.
      apply elem_of_app. right. by apply list_elem_of_singleton.
    * destruct (heap s !! q) as [r|]; [|rewrite Hc in Hg; simplify_eq; by eapply Hwt].
      case_decide; [|rewrite Hc in Hg; simplify_eq; by eapply Hwt].
      simpl in Hg.
      by rewrite list_lookup_insert_eq in Hg by (by eapply lookup_lt_Some).
    * destruct (shutdown s); simpl in Hg;
        rewrite list_lookup_insert_eq in Hg by (by eapply lookup_lt_Some);
        done.
    * destruct (queueClosed s); simpl in Hg;
        rewrite list_lookup_insert_eq in Hg by (by eapply lookup_lt_Some);
        done.
  + apply tracked_caller_step. apply (Hwt g).
    destruct (caller_step_callers g' c s) as [E|[c' E]]; rewrite E in Hg;
      [done|]. by rewrite list_lookup_insert_ne in Hg.
- simpl in *. rewrite start_step_callers in Hg.
  apply tracked_start_step; [done|]. by eapply Hwt.
Qed.

Lemma waits_tracked_exec tr s :
wf s → waits_tracked s → waits_tracked (exec tr s).
Proof.
revert s. induction tr as [|e tr IH]; intros s Hwf Hwt; [done|].
rewrite exec_cons. apply IH; [by apply wf_step | by apply waits_tracked_step].
Qed.

(** A caller inside [wg.Wait()] is never lost while the worker runs: its
    request is done, and the caller's next step returns what is stored
    in it, or it is in the queue, or the worker is serving it. *)
Theorem waiting_caller_tracked tr g p :
let s := exec tr New in
callers s !! g = Some (Query_wait p) →
(∃ r, heap s !! p = Some r ∧ wg r = 0%nat ∧
      callers (step (Run g) s) !! g
      = Some (Query_return (response r) (err r))) ∨
p ∈ requestQueue s ∨
work s = start_exchange p.
Proof.
intros s Hg.
assert (Hwt : waits_tracked s).
{ apply waits_tracked_exec; [apply wf_New|]. by intros ? ? ?. }
destruct (Hwt g p Hg) as [(r & Hr & H0)|[?|?]]; auto.
left. exists r. split; [done|]. split; [done|].
simpl. rewrite Hg. simpl. rewrite Hr, decide_True by done. simpl.
apply list_lookup_insert_eq. by eapply lookup_lt_Some.
Qed.

Lemma guard_step io s :
work s = start_guard → shutdown s = false →
step (Work io) s = set_work start_receive s.
Proof. intros Hw Hs. simpl. unfold Engine.start_step. by rewrite Hw, Hs. Qed.

Lemma receive_step io s p rest :
work s = start_receive → requestQueue s = p :: rest →
work (step (Work io) s) = start_exchange p ∧
requestQueue (step (Work io) s) = rest ∧
heap (step (Work io) s) = heap s.
Proof. intros Hw Hq. simpl. unfold Engine.start_step. by rewrite Hw, Hq. Qed.

Lemma exchange_step io s p r :
work s = start_exchange p → heap s !! p = Some r →
work (step (Work io) s) = start_guard ∧
requestQueue (step (Work io) s) = requestQueue s ∧
heap (step (Work io) s) !! p
= Some (exchange_request native IP_String io r).2.
Proof.
intros Hw Hp. simpl. unfold Engine.start_step. rewrite Hw, Hp.
cbn [work requestQueue heap]. split; [done|]. split; [done|].
apply list_lookup_insert_eq. by eapply lookup_lt_Some.
Qed.

(** One turn of the loop, with the engine running: from the head of the
    loop the worker takes the oldest queued request, serves it and is
    back at the head, with the rest of the queue untouched. *)
Theorem start_serves_head tr io1 io2 io p rest :
let s := exec tr New in
work s = start_guard → shutdown s = false →
requestQueue s = p :: rest →
let s' := exec [Work io1; Work io2; Work io] s in
work s' = start_guard ∧ requestQueue s' = rest ∧
∃ r, heap s !! p = Some r ∧
     heap s' !! p = Some (exchange_request native IP_String io r).2 ∧
     wg (exchange_request native IP_String io r).2 = 0%nat.
Proof.
intros s Hw Hs Hq s'.
pose proof (wf_exec native IP_String tr New wf_New) as Hwf. fold s in Hwf.
pose proof (wf_queue s Hwf) as Hp. rewrite Hq in Hp.
apply Forall_cons in Hp as [(r & Hr & Hone) _].
subst s'.
change (exec [Work io1; Work io2; Work io] s)
  with (step (Work io) (step (Work io2) (step (Work io1) s))).
rewrite (guard_step io1 s Hw Hs).
destruct (receive_step io2 (set_work start_receive s) p rest eq_refl Hq)
  as (Hw2 & Hq2 & Hh2).
assert (Hr2 : heap (step (Work io2) (set_work start_receive s)) !! p = Some r)
  by (by rewrite Hh2).
destruct (exchange_step io _ p r Hw2 Hr2) as (Hw3 & Hq3 & Hh3).
split; [done|]. split; [by rewrite Hq3|]. exists r. split; [done|].
split; [done|]. unfold Engine.exchange_request. cbn [snd wg]. lia.
Qed.
End runs.

Lemma waiting_caller_tracked_witness :
let s := Engine.exec LittleEndian sample_String
           (queries_run 2 ++ [Work sample_io; Work sample_io]) New in
callers s !! 0%nat = Some (Query_wait 0) ∧
callers s !! 1%nat = Some (Query_wait 1) ∧
work s = start_exchange 0 ∧
1%nat ∈ requestQueue s.
Proof.
intros s. split; [reflexivity|]. split; [reflexivity|]. split; [reflexivity|].
destruct (waiting_caller_tracked LittleEndian sample_String
            (queries_run 2 ++ [Work sample_io; Work sample_io]) 1 1 eq_refl)
  as [(r & Hr & H0 & _)|[Hin|Hw]].
- exfalso. injection Hr as <-. discriminate H0.
- exact Hin.
- discriminate Hw.
Defined.

Lemma start_serves_head_witness :
let s := Engine.exec LittleEndian sample_String (queries_run 2) New in
let s' := Engine.exec LittleEndian sample_String
            [Work sample_io; Work sample_io; Work sample_io] s in
work s = start_guard ∧ shutdown s = false ∧
requestQueue s = [0%nat; 1%nat] ∧
work s' = start_guard ∧ requestQueue s' = [1%nat].
Proof.
intros s s'. split; [reflexivity|]. split; [reflexivity|].
split; [reflexivity|].
destruct (start_serves_head LittleEndian sample_String (queries_run 2)
            sample_io sample_io sample_io 0 [1%nat] eq_refl eq_refl eq_refl)
  as (Hw & Hq & _).
split; [exact Hw | exact Hq].
Defined.
End WaitingFacts.

(** ** The HTTP handlers *)

Module httpFacts.
Import http.

Section handler_facts.
Variable SplitHostPort : string → string * string * option error.
Variable ParseIP : string → option net.IP.
Variable ipResolver : Request → string.
Abbreviation handler := (handler SplitHostPort ParseIP).

(** Every answer starts by setting [Connection: close] and is written by
    exactly one call, the last one: [http.Error] with 405, 400 or 500, or
    the encoding of a result. *)
Theorem handler_one_response (q : P0fResponse * option error) (r : Request) :
∃ headers last,
  (handler q ipResolver r).2
  = Header_Set "Connection" "close" :: headers ++ [last] ∧
  Forall (λ c, writes c = false) headers ∧
  ((∃ msg code, last = Error msg code ∧ (code = 405 ∨ code = 400 ∨ code = 500)%nat) ∨
   (∃ response, last = Encode response)).
Proof.
unfold http.handler. destruct q as [response [e|]].
all: case_decide;
  [by exists [Header_Set "Allow" "GET"]; eexists; split; [reflexivity|];
      split; [repeat constructor | left; eauto 6]|].
all: destruct (SplitHostPort (ipResolver r)) as [[host port] [e'|]];
  [by exists []; eexists; split; [reflexivity|];
      split; [constructor | left; eauto 6]|].
all: destruct (ParseIP host) as [userIP|];
  [|by exists []; eexists; split; [reflexivity|];
      split; [constructor | left; eauto 6]].
- exists []. eexists. split; [reflexivity|]. split; [constructor|].
  left. eauto 6.
- destruct (Query_Has_p r).
  + eexists [_; _]. eexists. split; [reflexivity|].
    split; [repeat constructor | right; eauto].
  + eexists [_]. eexists. split; [reflexivity|].
    split; [repeat constructor | right; eauto].
Qed.

(** [p.Query] is called exactly for a GET whose resolved address splits
    and parses, and with the parsed address; a request that is refused
    before that is answered without regard to the engine. *)
Theorem handler_asks_Query (q : P0fResponse * option error) (r : Request) :
(∀ userIP,
   (handler q ipResolver r).1 = Some userIP ↔
   Method r = "GET" ∧
   ∃ host port, SplitHostPort (ipResolver r) = (host, port, None) ∧
                ParseIP host = Some userIP) ∧
((handler q ipResolver r).1 = None →
 ∀ q', handler q' ipResolver r = handler q ipResolver r) ∧
(Method r ≠ "GET" →
 handler q ipResolver r
 = (None, [Header_Set "Connection" "close"; Header_Set "Allow" "GET";
           Error "" 405])).
Proof.
unfold http.handler. split; [|split].
- intros userIP. case_decide as Hm.
  + split; [done|]. by intros [? _].
  + destruct (SplitHostPort (ipResolver r)) as [[host port] [e'|]].
    * split; [done|]. by intros (_ & ? & ? & [=] & _).
    * destruct (ParseIP host) as [ip0|] eqn:Hip.
      -- destruct q as [response [e|]]; simpl.
         all: split;
           [intros [= <-]; split; [done|]; by exists host, port
           |intros (_ & ? & ? & [= <- <-] & Hp); by rewrite Hip in Hp].
      -- split; [done|]. intros (_ & ? & ? & [= <- <-] & Hp).
         by rewrite Hip in Hp.
- case_decide; [done|].
  destruct (SplitHostPort (ipResolver r)) as [[host port] [e'|]]; [done|].
  destruct (ParseIP host); [|done].
  by destruct q as [response [e|]].
- intros Hm. by rewrite decide_True.
Qed.

(** Once [p.Query] has been called, its error becomes a 500 whose text is
    [query error: ] and the error; its result is encoded after the JSON
    content type is set, indented exactly when [p] is among the query
    parameters. *)
Theorem handler_answers_Query (q : P0fResponse * option error) (r : Request)
  (userIP : net.IP) :
(handler q ipResolver r).1 = Some userIP →
(handler q ipResolver r).2
= match q.2 with
  | Some e =>
      [Header_Set "Connection" "close";
       Error ("query error: " +:+ e) 500]
  | None =>
      [Header_Set "Connection" "close";
       Header_Set "Content-Type" "application/json; charset=UTF-8"]
      ++ (if Query_Has_p r then [SetIndent "" " "] else [])
      ++ [Encode q.1]
  end.
Proof.
unfold http.handler. case_decide; [done|].
destruct (SplitHostPort (ipResolver r)) as [[host port] [e'|]]; [done|].
destruct (ParseIP host); [|done].
destruct q as [response [e|]]; simpl; [done|].
by destruct (Query_Has_p r).
Qed.
End handler_facts.

(** The handler the stand-alone [main] has inline is the handler of
    [StartHttpWebServer] under [DefaultIpResolver], the resolver the
    other [main] passes. *)
Theorem main_handler_default SplitHostPort ParseIP q (r : Request) :
main_handler SplitHostPort ParseIP q r
= http.handler SplitHostPort ParseIP q DefaultIpResolver r.
Proof.
unfold main_handler, http.handler, DefaultIpResolver.
case_decide; [done|].
destruct (SplitHostPort (RemoteAddr r)) as [[host port] [e'|]]; [done|].
by destruct (ParseIP host).
Qed.

Lemma handler_answers_Query_witness :
let split := λ _ : string, ("1.2.3.4", "51234", None) in
let parse := λ _ : string, Some sample_ip in
let r := {| Method := "GET"; RemoteAddr := "1.2.3.4:51234";
            Query_Has_p := true |} in
let q := (P0fResponse_zero, Some "requestQueue at capacity") in
(http.handler split parse q DefaultIpResolver r).1 = Some sample_ip ∧
(http.handler split parse q DefaultIpResolver r).2
= [Header_Set "Connection" "close";
   Error "query error: requestQueue at capacity" 500].
Proof.
intros split parse r q. split; [reflexivity|].
exact (handler_answers_Query split parse DefaultIpResolver q r sample_ip
         eq_refl).
Defined.
End httpFacts.
